(** * Coordinate maps of nipy: [nipy/core/reference/coordinate_map.py]

    A shallow embedding of [CoordinateMap], [AffineTransform], [compose],
    [product] and [linearize], and the properties of the coordinate-map
    algebra that follow from the code.

    Scalars are exact rationals ([Qc]): every statement below is a statement
    about the arithmetic the code performs, without floating-point rounding.
    The numpy precision of an array (its dtype) is kept as a tag, because the
    code computes with it ([safe_dtype], equality of coordinate systems). *)

From Stdlib Require Import String Ascii Bool Arith ZArith QArith Qcanon Lia List.
Import ListNotations.

Open Scope Qc_scope.

(** ** Exceptions and results *)

Inductive exn : Type :=
| ValueError (msg : string)
| LinAlgError (msg : string)
| IndexError (msg : string)
| OtherError (msg : string).

Inductive res (A : Type) : Type :=
| Ok (a : A)
| Raise (e : exn).

Arguments Ok {A} a.
Arguments Raise {A} e.

Definition bind {A B : Type} (m : res A) (k : A -> res B) : res B :=
  match m with
  | Ok a => k a
  | Raise e => Raise e
  end.

Notation "x <- m ;; k" := (bind m (fun x => k))
  (at level 61, m at next level, right associativity).

Definition is_ValueError (e : exn) : bool :=
  match e with ValueError _ => true | _ => false end.

(** ** Vectors and matrices over the rationals *)

Abbreviation vec := (list Qc).
Abbreviation matrix := (list (list Qc)).

Definition qz (z : Z) : Qc := Q2Qc (inject_Z z).

Fixpoint dot (u v : vec) : Qc :=
  match u, v with
  | a :: u', b :: v' => a * b + dot u' v'
  | _, _ => 0
  end.

Fixpoint vzip (f : Qc -> Qc -> Qc) (u v : vec) : vec :=
  match u, v with
  | a :: u', b :: v' => f a b :: vzip f u' v'
  | _, _ => []
  end.

Definition vadd : vec -> vec -> vec := vzip Qcplus.
Definition vsub : vec -> vec -> vec := vzip Qcminus.
Definition vscale (c : Qc) (v : vec) : vec := map (Qcmult c) v.
Definition vdiv (v : vec) (c : Qc) : vec := map (fun a => a / c) v.

Definition zeros (n : nat) : vec := repeat 0 n.

(** [unit_vec n i] is row [i] of [np.eye(n)]. *)
Definition unit_vec (n i : nat) : vec :=
  map (fun j => if Nat.eqb i j then 1 else 0) (seq 0 n).

Definition eye (n : nat) : matrix := map (unit_vec n) (seq 0 n).

(** [matvec M x] is [M . x]; on a batch row [x] this is the row [x . M^T]. *)
Definition matvec (M : matrix) (x : vec) : vec := map (fun r => dot r x) M.

(** [vecmat x N] is the row vector [x . N], a combination of the rows of [N];
    [w] is the width of [N]. *)
Fixpoint vecmat (w : nat) (x : vec) (N : matrix) : vec :=
  match x, N with
  | a :: x', r :: N' => vadd (vscale a r) (vecmat w x' N')
  | _, _ => zeros w
  end.


Definition column (j : nat) (M : matrix) : vec := map (fun r => nth j r 0) M.

(** Transpose of a matrix with [nc] columns. *)
Definition transpose (nc : nat) (M : matrix) : matrix :=
  map (fun j => column j M) (seq 0 nc).

Definition has_shape (r c : nat) (M : matrix) : Prop :=
  length M = r /\ Forall (fun row => length row = c) M.

Definition has_shapeb (r c : nat) (M : matrix) : bool :=
  Nat.eqb (length M) r && forallb (fun row => Nat.eqb (length row) c) M.

(** ** numpy precisions

    Modelled from the spec: the coordinate-system module is not part of the
    sources; its precisions form a total order and [safe_dtype] returns the
    least upper bound of the precisions it is given. *)

Inductive dtype : Type := int32 | int64 | float32 | float64 | complex128.

Definition dtype_rank (d : dtype) : nat :=
  match d with
  | int32 => 0 | int64 => 1 | float32 => 2 | float64 => 3 | complex128 => 4
  end%nat.

Definition dtype_eqb (a b : dtype) : bool := Nat.eqb (dtype_rank a) (dtype_rank b).

Definition safe_dtype2 (a b : dtype) : dtype :=
  if Nat.leb (dtype_rank a) (dtype_rank b) then b else a.

Definition safe_dtype (d : dtype) (ds : list dtype) : dtype :=
  fold_left safe_dtype2 ds d.

Definition dtype_repr (d : dtype) : string :=
  match d with
  | int32 => "int32" | int64 => "int64" | float32 => "float32"
  | float64 => "float64" | complex128 => "complex128"
  end.

Definition is_integer_dtype (d : dtype) : bool :=
  match d with int32 | int64 => true | _ => false end.

(** ** numpy arrays

    Arrays of at most two dimensions: [Arr1 d v] has shape [(length v,)],
    [Arr2 d nc rows] has shape [(length rows, nc)].  The column count is kept
    so that arrays without rows still have a shape. *)

Inductive ndarray : Type :=
| Arr1 (d : dtype) (v : vec)
| Arr2 (d : dtype) (ncols : nat) (rows : list vec).

Definition arr_dtype (a : ndarray) : dtype :=
  match a with Arr1 d _ => d | Arr2 d _ _ => d end.

Definition arr_wf (a : ndarray) : Prop :=
  match a with
  | Arr1 _ _ => True
  | Arr2 _ nc rows => Forall (fun r => length r = nc) rows
  end.

(** [np.asarray(a, dtype=d)] and [a.astype(d)]: the values are kept. *)
Definition astype (d : dtype) (a : ndarray) : ndarray :=
  match a with
  | Arr1 _ v => Arr1 d v
  | Arr2 _ nc rows => Arr2 d nc rows
  end.

Definition arr_rows (a : ndarray) : matrix :=
  match a with Arr1 _ v => [v] | Arr2 _ _ rows => rows end.

(** A matrix given by its rows, as a two-dimensional array. *)
Definition mk_matrix (d : dtype) (nc : nat) (M : matrix) : ndarray := Arr2 d nc M.

Definition callable := ndarray -> res ndarray.

(** ** Coordinate systems

    Modelled from the spec: the class [CoordinateSystem] is imported from
    [nipy.core.reference.coordinate_system], which is not part of the sources.
    It holds ordered axis names, a label and a precision; two systems are equal
    when the three agree; [index] looks an axis name up; [_checked_values]
    promotes a single point to a one-row batch, checks the size of the last
    dimension against the number of axes and coerces to the precision of the
    system; the product of coordinate systems concatenates the axes and
    promotes to a common precision. *)

Record CoordinateSystem : Type := {
  coord_names : list string;
  name : string;
  coord_dtype : dtype
}.

Definition ndim (cs : CoordinateSystem) : nat := length (coord_names cs).

(** The invariant of the data model: axis names are unique. *)
Definition cs_wf (cs : CoordinateSystem) : Prop := NoDup (coord_names cs).

Definition names_eqb (a b : list string) : bool :=
  if list_eq_dec string_dec a b then true else false.

Definition cs_eqb (a b : CoordinateSystem) : bool :=
  names_eqb (coord_names a) (coord_names b)
  && String.eqb (name a) (name b)
  && dtype_eqb (coord_dtype a) (coord_dtype b).

Fixpoint index_of (s : string) (l : list string) : option nat :=
  match l with
  | [] => None
  | x :: l' => if String.eqb s x then Some 0%nat
               else option_map S (index_of s l')
  end.

Definition cs_index (cs : CoordinateSystem) (s : string) : res nat :=
  match index_of s (coord_names cs) with
  | Some i => Ok i
  | None => Raise (ValueError ("no axis named " ++ s)%string)
  end.

(** The structured dtype of a coordinate system, as it is printed in error
    messages: the axis names, each with the precision. *)
Definition cs_dtype_repr (cs : CoordinateSystem) : string :=
  ("dtype([" ++
   String.concat ", "
     (map (fun n => "('" ++ n ++ "', '" ++ dtype_repr (coord_dtype cs) ++ "')")
          (coord_names cs))
   ++ "])")%string.

Definition checked_values (cs : CoordinateSystem) (x : ndarray) : res ndarray :=
  match x with
  | Arr1 _ v =>
      if Nat.eqb (length v) (ndim cs) then Ok (Arr2 (coord_dtype cs) (length v) [v])
      else Raise (ValueError "array shape does not match the coordinate system")
  | Arr2 _ nc rows =>
      if Nat.eqb nc (ndim cs) then Ok (Arr2 (coord_dtype cs) nc rows)
      else Raise (ValueError "array shape does not match the coordinate system")
  end.

Definition coordsys_product (css : list CoordinateSystem) : CoordinateSystem :=
  {| coord_names := flat_map coord_names css;
     name := "product";
     coord_dtype := match css with
                    | [] => float64
                    | c :: cs' => safe_dtype (coord_dtype c) (map coord_dtype cs')
                    end |}.

(** ** Coordinate maps

    [AffineTransform] is a subclass of [CoordinateMap]: the two are the two
    constructors of one type, [isinstance(x, AffineTransform)] is the test on
    the constructor, and the attributes that both classes have are functions
    on that type. *)

Inductive cmap : Type :=
| CoordinateMap (function : callable) (input_coords output_coords : CoordinateSystem)
                (inverse_function : option callable)
| AffineTransform (affine : ndarray) (input_coords output_coords : CoordinateSystem).

Definition is_AffineTransform (c : cmap) : bool :=
  match c with AffineTransform _ _ _ => true | _ => false end.

Definition input_coords (c : cmap) : CoordinateSystem :=
  match c with CoordinateMap _ i _ _ => i | AffineTransform _ i _ => i end.

Definition output_coords (c : cmap) : CoordinateSystem :=
  match c with CoordinateMap _ _ o _ => o | AffineTransform _ _ o => o end.

Definition ndims (c : cmap) : nat * nat := (ndim (input_coords c), ndim (output_coords c)).

(** Modelled from the spec: [affines.to_matrix_vector] is imported from
    [nipy.core.transforms.affines], which is not part of the sources.  It
    splits a homogeneous matrix [[A, b], [0, 1]] into the linear block [A] and
    the translation [b]; the last row is not looked at. *)
Definition to_matrix_vector (M : matrix) : matrix * vec :=
  (map (@removelast Qc) (removelast M), map (fun r => last r 0) (removelast M)).

(** Modelled from the spec: [affines.from_matrix_vector], the homogeneous
    matrix [[A, b], [0, 1]] of a linear block with [nin] columns and a
    translation. *)
Definition from_matrix_vector (nin : nat) (A : matrix) (b : vec) : matrix :=
  map (fun rb => fst rb ++ [snd rb]) (combine A b) ++ [zeros nin ++ [1]].

(** The closure [_function] of [AffineTransform.__init__]:
    [np.dot(x, A.T) + b], on a point or on a batch of points. *)
Definition affine_function (aff : ndarray) : callable := fun x =>
  match aff with
  | Arr1 _ _ => Raise (ValueError "affine is not a matrix")
  | Arr2 d nc M =>
      let '(A, b) := to_matrix_vector M in
      match x with
      | Arr1 dx v =>
          if Nat.eqb (length v) (nc - 1)
          then Ok (Arr1 (safe_dtype2 dx d) (vadd (matvec A v) b))
          else Raise (ValueError "matrices are not aligned")
      | Arr2 dx k xs =>
          if Nat.eqb k (nc - 1)
          then Ok (Arr2 (safe_dtype2 dx d) (length M - 1)
                        (map (fun r => vadd (matvec A r) b) xs))
          else Raise (ValueError "matrices are not aligned")
      end
  end.

Arguments affine_function : simpl never.
Arguments to_matrix_vector : simpl never.

Definition function (c : cmap) : callable :=
  match c with
  | CoordinateMap f _ _ _ => f
  | AffineTransform aff _ _ => affine_function aff
  end.

(** [CoordinateMap.__call__], inherited by [AffineTransform]. *)
Definition call (c : cmap) : callable := fun x =>
  in_vals <- checked_values (input_coords c) x ;;
  out_vals <- function c in_vals ;;
  checked_values (output_coords c) out_vals.

Definition zero_batch (d : dtype) (n : nat) : ndarray := Arr2 d n (repeat (zeros n) 10).

(** [CoordinateMap.__init__]: the functions of the model are callable by
    their type; what is left of the constructor is [_checkfunction]. *)
Definition CoordinateMap_init (f : callable) (ic oc : CoordinateSystem)
    (invf : option callable) : res cmap :=
  let self := CoordinateMap f ic oc invf in
  _ <- call self (zero_batch (coord_dtype ic) (fst (ndims self))) ;;
  Ok self.

Definition arr_shape_is (r c : nat) (a : ndarray) : bool :=
  match a with
  | Arr1 _ _ => false
  | Arr2 _ nc rows => Nat.eqb (length rows) r && Nat.eqb nc c
  end.

(** [AffineTransform.__init__] *)
Definition AffineTransform_init (aff : ndarray) (ic oc : CoordinateSystem) : res cmap :=
  let dt := safe_dtype (arr_dtype aff) [coord_dtype ic; coord_dtype oc] in
  let ic' := {| coord_names := coord_names ic; name := name ic; coord_dtype := dt |} in
  let oc' := {| coord_names := coord_names oc; name := name oc; coord_dtype := dt |} in
  let aff' := astype dt aff in
  if arr_shape_is (ndim oc' + 1) (ndim ic' + 1) aff'
  then Ok (AffineTransform aff' ic' oc')
  else Raise (ValueError "coordinate lengths do not match affine matrix shape").

(** ** Matrix inversion

    [np.linalg.inv] belongs to numpy.  It is modelled by Gaussian elimination
    on the equations [M x = y]: a pivot row is chosen for the first unknown,
    the unknown is eliminated from the other rows, the smaller system is
    solved and the pivot row gives the first unknown back. [inv_spec] below
    shows that the outcome is the inverse of the matrix, and that there is
    none when the elimination finds no pivot. *)

Definition Qc_eqb (a b : Qc) : bool := Qeq_bool a b.

Definition equation : Type := vec * vec.

Fixpoint find_pivot (eqs : list equation)
  : option ((Qc * vec * vec) * list equation) :=
  match eqs with
  | [] => None
  | (c, r) :: rest =>
      match c with
      | [] => None
      | a :: c' =>
          if Qc_eqb a 0
          then match find_pivot rest with
               | Some (p, others) => Some (p, (c, r) :: others)
               | None => None
               end
          else Some ((a, c', r), rest)
      end
  end.

Definition eliminate (p : Qc) (pc pr : vec) (e : equation) : equation :=
  match fst e with
  | [] => e
  | a :: c' => (vsub c' (vscale (a / p) pc), vsub (snd e) (vscale (a / p) pr))
  end.

Fixpoint solve (w n : nat) (eqs : list equation) : option matrix :=
  match n with
  | O => Some []
  | S n' =>
      match find_pivot eqs with
      | None => None
      | Some ((p, pc, pr), others) =>
          match solve w n' (map (eliminate p pc pr) others) with
          | None => None
          | Some N' => Some (vdiv (vsub pr (vecmat w pc N')) p :: N')
          end
      end
  end.

Definition inv_matrix (n : nat) (M : matrix) : option matrix :=
  solve n n (combine M (eye n)).

(** The precision of [np.linalg.inv(a)]: floating, at least [float64] for a
    matrix of integers. *)
Definition inv_dtype (d : dtype) : dtype :=
  if is_integer_dtype d then float64 else d.

Definition linalg_inv (a : ndarray) : res ndarray :=
  match a with
  | Arr1 _ _ => Raise (LinAlgError "array must be two-dimensional")
  | Arr2 d nc M =>
      if Nat.eqb (length M) nc
      then match inv_matrix nc M with
           | Some N => Ok (Arr2 (inv_dtype d) nc N)
           | None => Raise (LinAlgError "Singular matrix")
           end
      else Raise (LinAlgError "Array must be square")
  end.

(** The property [inverse] of the two classes.  [AffineTransform.inverse]
    catches [LinAlgError] and then falls off the end of the function: the
    value is [None]. *)
Definition inverse (c : cmap) : res (option cmap) :=
  match c with
  | CoordinateMap f ic oc None => Ok None
  | CoordinateMap f ic oc (Some g) =>
      i <- CoordinateMap_init g oc ic (Some f) ;; Ok (Some i)
  | AffineTransform aff ic oc =>
      match linalg_inv aff with
      | Ok ia => i <- AffineTransform_init ia oc ic ;; Ok (Some i)
      | Raise (LinAlgError _) => Ok None
      | Raise e => Raise e
      end
  end.

(** The property [inverse_function] of the two classes. *)
Definition inverse_function (c : cmap) : res (option callable) :=
  match c with
  | CoordinateMap _ _ _ g => Ok g
  | AffineTransform _ _ _ =>
      i <- inverse c ;;
      match i with
      | None => Raise (ValueError "There is no inverse for this affine")
      | Some ic => Ok (Some (function ic))
      end
  end.

(** ** Broadcasting, as far as [linearize] uses it *)

Definition bcast_dim (a b : nat) : option nat :=
  if Nat.eqb a b then Some a
  else if Nat.eqb a 1 then Some b
  else if Nat.eqb b 1 then Some a
  else None.

Definition stretch {A : Type} (n : nat) (l : list A) : option (list A) :=
  if Nat.eqb (length l) n then Some l
  else match l with
       | [x] => Some (repeat x n)
       | _ => None
       end.

Definition broadcast_error {A : Type} : res A :=
  Raise (ValueError "shape mismatch: objects cannot be broadcast to a single shape").

Definition of_option {A : Type} (o : option A) : res A :=
  match o with Some a => Ok a | None => broadcast_error end.

Fixpoint all_some {A : Type} (l : list (option A)) : option (list A) :=
  match l with
  | [] => Some []
  | None :: _ => None
  | Some a :: l' => option_map (cons a) (all_some l')
  end.

(** The value assigned by [C[:n, -1] = b]: leading dimensions of size one
    are dropped, a single value is repeated. *)
Definition broadcast_vec (n : nat) (b : ndarray) : res vec :=
  match b with
  | Arr1 _ v => of_option (stretch n v)
  | Arr2 _ _ [v] => of_option (stretch n v)
  | Arr2 _ _ _ => broadcast_error
  end.

(** The values assigned by [C[:r, :c] = m] for [m] with rows [rows]. *)
Definition broadcast_mat (r c : nat) (rows : matrix) : res matrix :=
  match all_some (map (stretch c) rows) with
  | Some rows' => of_option (stretch r rows')
  | None => broadcast_error
  end.

(** [y1 - y0] for a two-dimensional [y1] of shape [(r1, c1)]: the shape of the
    difference and its rows. *)
Definition arr_sub (r1 c1 : nat) (rows1 : matrix) (y0 : ndarray)
  : res (nat * nat * matrix) :=
  let '(r0, c0, rows0) :=
    match y0 with
    | Arr1 _ v => (1%nat, length v, [v])
    | Arr2 _ nc rows => (length rows, nc, rows)
    end in
  match bcast_dim r1 r0, bcast_dim c1 c0 with
  | Some r, Some c =>
      a <- broadcast_mat r c rows1 ;;
      b <- broadcast_mat r c rows0 ;;
      Ok (r, c, map (fun ab => vsub (fst ab) (snd ab)) (combine a b))
  | _, _ => broadcast_error
  end.

(** ** [linearize]

    [step] is a Python scalar, so that without [dtype] the precision is
    [np.float].  The quotient by [step] is the exact one. *)
Definition linearize (f : callable) (ndimin : nat) (step : Qc)
    (origin : option ndarray) (dt : option dtype) : res ndarray :=
  let dtype := match dt with Some d => d | None => float64 end in
  origin <- match origin with
            | None => Ok (zeros ndimin)
            | Some (Arr1 _ v) =>
                if Nat.eqb (length v) ndimin then Ok v
                else Raise (ValueError "origin.shape != (ndimin,)")
            | Some (Arr2 _ _ _) => Raise (ValueError "origin.shape != (ndimin,)")
            end ;;
  b <- f (Arr1 dtype origin) ;;
  let origin2 := repeat origin ndimin in
  y1 <- f (Arr2 dtype ndimin
             (map (fun i => vadd (vscale step (unit_vec ndimin i)) origin) (seq 0 ndimin))) ;;
  y0 <- f (Arr2 dtype ndimin origin2) ;;
  match y1 with
  | Arr1 _ _ => Raise (IndexError "tuple index out of range")
  | Arr2 _ ndimout rows1 =>
      let cdt := safe_dtype2 (arr_dtype y0) dtype in
      bcol <- broadcast_vec ndimout b ;;
      d <- arr_sub (length rows1) ndimout rows1 y0 ;;
      let '(r, c, diff) := d in
      block <- broadcast_mat ndimout ndimin
                 (map (fun row => vdiv row step) (transpose c diff)) ;;
      Ok (Arr2 cdt (ndimin + 1) (from_matrix_vector ndimin block bcol))
  end.

(** ** [compose] *)

(** [_compose2]: the inverses are properties, evaluated when the test is
    made; the functions of the model are pure, so that [backward] may keep
    the two inverses it finds there. *)
Definition _compose2 (cmap1 cmap2 : cmap) : res (callable * option callable) :=
  let forward : callable := fun input => x <- function cmap2 input ;; function cmap1 x in
  i1 <- inverse cmap1 ;;
  match i1 with
  | None => Ok (forward, None)
  | Some inv1 =>
      i2 <- inverse cmap2 ;;
      match i2 with
      | None => Ok (forward, None)
      | Some inv2 =>
          Ok (forward,
              Some (fun output => x <- function inv1 output ;; function inv2 x))
      end
  end.

Definition mismatch_message (m_in cmap_out : CoordinateSystem) : string :=
  ("input and output coordinates do not match: input=" ++ cs_dtype_repr m_in
   ++ ", output=" ++ cs_dtype_repr cmap_out)%string.

(** The loop of [compose]: [ms] holds [cmaps[len-2]], ..., [cmaps[0]] in the
    order in which the loop visits them. *)
Fixpoint compose_loop (ms : list cmap) (cmap_ : cmap) : res cmap :=
  match ms with
  | [] => Ok cmap_
  | m :: ms' =>
      if cs_eqb (input_coords m) (output_coords cmap_)
      then
        fb <- _compose2 m cmap_ ;;
        cmap' <- CoordinateMap_init (fst fb) (input_coords cmap_) (output_coords m) (snd fb) ;;
        compose_loop ms' cmap'
      else Raise (ValueError (mismatch_message (input_coords m) (output_coords cmap_)))
  end.

Definition all_affine (cmaps : list cmap) : bool := forallb is_AffineTransform cmaps.

Definition compose (cmaps : list cmap) : res cmap :=
  match rev cmaps with
  | [] => Raise (IndexError "tuple index out of range")
  | last_ :: ms =>
      cmap_ <- compose_loop ms last_ ;;
      if all_affine cmaps
      then
        aff <- linearize (call cmap_) (fst (ndims cmap_)) 1 None
                 (Some (coord_dtype (output_coords cmap_))) ;;
        AffineTransform_init aff (input_coords cmap_) (output_coords cmap_)
      else Ok cmap_
  end.

(** ** [product] *)

(** [x[a:b]] on a point and [x[:, a:b]] on a batch, for [a <= b]. *)
Definition slice (a b : nat) (x : ndarray) : ndarray :=
  match x with
  | Arr1 d v => Arr1 d (firstn (b - a) (skipn a v))
  | Arr2 d nc rows =>
      Arr2 d (Nat.min b nc - Nat.min a nc) (map (fun r => firstn (b - a) (skipn a r)) rows)
  end.

Definition hcat (a b : ndarray) : res ndarray :=
  match a, b with
  | Arr1 d v, Arr1 d' v' => Ok (Arr1 (safe_dtype2 d d') (v ++ v'))
  | Arr2 d nc rows, Arr2 d' nc' rows' =>
      if Nat.eqb (length rows) (length rows')
      then Ok (Arr2 (safe_dtype2 d d') (nc + nc')
                    (map (fun rr => fst rr ++ snd rr) (combine rows rows')))
      else Raise (ValueError "all the input array dimensions except for the concatenation axis must match exactly")
  | _, _ => Raise (ValueError "all the input arrays must have same number of dimensions")
  end.

Fixpoint hstack_from (acc : ndarray) (ys : list ndarray) : res ndarray :=
  match ys with
  | [] => Ok acc
  | y :: ys' => acc' <- hcat acc y ;; hstack_from acc' ys'
  end.

Definition hstack (ys : list ndarray) : res ndarray :=
  match ys with
  | [] => Raise (ValueError "need at least one array to concatenate")
  | y :: ys' => hstack_from y ys'
  end.

(** The loop of the inner [function] of [product]; [off] is [ndimin[i]], the
    running sum of the input dimensions. *)
Fixpoint product_apply (cmaps : list cmap) (off : nat) (x : ndarray) : res (list ndarray) :=
  match cmaps with
  | [] => Ok []
  | c :: cs =>
      let k := fst (ndims c) in
      yy <- call c (slice off (off + k) x) ;;
      y <- product_apply cs (off + k) x ;;
      Ok (yy :: y)
  end.

Definition product_function (cmaps : list cmap) : callable := fun x =>
  y <- product_apply cmaps 0 x ;; hstack y.

Definition product (cmaps : list cmap) : res cmap :=
  let total := list_sum (map (fun c => fst (ndims c)) cmaps) in
  let incoords := coordsys_product (map input_coords cmaps) in
  let outcoords := coordsys_product (map output_coords cmaps) in
  if all_affine cmaps
  then
    aff <- linearize (product_function cmaps) total 1 None (Some (coord_dtype incoords)) ;;
    AffineTransform_init aff incoords outcoords
  else CoordinateMap_init (product_function cmaps) incoords outcoords None.

(** ** Reordering and renaming the input axes *)

(** The [order] argument: omitted, axis names, or integer positions. *)
Inductive order_arg : Type :=
| OrderNone
| OrderNames (names : list string)
| OrderInts (positions : list Z).

(** Python's index into a sequence of length [len]: negative positions count
    from the end. *)
Definition py_index (len : nat) (j : Z) : option nat :=
  if (0 <=? j)%Z && (j <? Z.of_nat len)%Z then Some (Z.to_nat j)
  else if (- Z.of_nat len <=? j)%Z && (j <? 0)%Z then Some (Z.to_nat (Z.of_nat len + j))
  else None.

Definition getitem {A : Type} (l : list A) (j : Z) : res A :=
  match py_index (length l) j with
  | Some i => match nth_error l i with
              | Some a => Ok a
              | None => Raise (IndexError "index out of range")
              end
  | None => Raise (IndexError "index out of range")
  end.

Fixpoint mapM {A B : Type} (f : A -> res B) (l : list A) : res (list B) :=
  match l with
  | [] => Ok []
  | a :: l' => b <- f a ;; bs <- mapM f l' ;; Ok (b :: bs)
  end.

Fixpoint set_nth {A : Type} (i : nat) (a : A) (l : list A) : list A :=
  match l, i with
  | [], _ => []
  | _ :: l', O => a :: l'
  | x :: l', S i' => x :: set_nth i' a l'
  end.

(** [perm[j, i] = 1.] on a square array with [n] rows. *)
Definition set_entry (n : nat) (j : Z) (i : nat) (perm : matrix) : res matrix :=
  match py_index n j with
  | Some r =>
      if Nat.ltb i n
      then Ok (set_nth r (set_nth i 1 (nth r perm [])) perm)
      else Raise (IndexError "index out of bounds")
  | None => Raise (IndexError "index out of bounds")
  end.

Fixpoint fill_perm (n : nat) (i : nat) (order : list Z) (perm : matrix) : res matrix :=
  match order with
  | [] => Ok perm
  | j :: order' => perm' <- set_entry n j i perm ;; fill_perm n (S i) order' perm'
  end.

Definition new_name (requested : string) (cs : CoordinateSystem) : string :=
  if String.eqb requested "" then name cs else requested.

(** The first lines of [reordered_input]: the order as a list of integers. *)
Definition normalize_order (self : cmap) (order : order_arg) : res (list Z) :=
  let ndim_ := fst (ndims self) in
  match order with
  | OrderNone => Ok (map Z.of_nat (rev (seq 0 ndim_)))
  | OrderNames [] => Raise (IndexError "list index out of range")
  | OrderNames ss =>
      l <- mapM (cs_index (input_coords self)) ss ;; Ok (map Z.of_nat l)
  | OrderInts [] => Raise (IndexError "list index out of range")
  | OrderInts l => Ok l
  end.

(** [np.zeros((ndim+1,)*2)] with [perm[-1,-1] = 1.] *)
Definition initial_perm (ndim_ : nat) : matrix :=
  set_nth ndim_ (set_nth ndim_ 1 (zeros (ndim_ + 1)))
          (repeat (zeros (ndim_ + 1)) (ndim_ + 1)).

(** The rest of [reordered_input], once the order is a list of integers. *)
Definition reordered_with (self : cmap) (order : list Z) (name_ : string) : res cmap :=
  let ndim_ := fst (ndims self) in
  newaxes <- mapM (getitem (coord_names (input_coords self))) order ;;
  let newincoords := {| coord_names := newaxes; name := name_;
                        coord_dtype := coord_dtype (input_coords self) |} in
  perm <- fill_perm (ndim_ + 1) 0 order (initial_perm ndim_) ;;
  A <- AffineTransform_init (Arr2 (coord_dtype (input_coords self)) (ndim_ + 1) perm)
         newincoords (input_coords self) ;;
  compose [self; A].

Definition reordered_input (self : cmap) (order : order_arg) (name_ : string) : res cmap :=
  let name_ := new_name name_ (input_coords self) in
  order <- normalize_order self order ;;
  reordered_with self order name_.

(** A Python dictionary from names to names, in the order of its iteration;
    the keys are distinct. *)
Definition rename_dict := list (string * string).

Fixpoint dict_get (d : rename_dict) (k : string) : option string :=
  match d with
  | [] => None
  | (k', v) :: d' => if String.eqb k k' then Some v else dict_get d' k
  end.

Definition name_in (n : string) (l : list string) : bool :=
  existsb (String.eqb n) l.

Fixpoint check_keys (keys : list string) (names : list string) : res unit :=
  match keys with
  | [] => Ok tt
  | n :: keys' =>
      if name_in n names then check_keys keys' names
      else Raise (ValueError ("no input coordinate named " ++ n)%string)
  end.

Definition rename_axes (d : rename_dict) (names : list string) : list string :=
  map (fun n => match dict_get d n with Some v => v | None => n end) names.

Definition renamed_input (self : cmap) (newnames : rename_dict) (name_ : string) : res cmap :=
  let name_ := new_name name_ (input_coords self) in
  _ <- check_keys (map fst newnames) (coord_names (input_coords self)) ;;
  let new_coord_names := rename_axes newnames (coord_names (input_coords self)) in
  let new_input_coords := {| coord_names := new_coord_names; name := name_;
                             coord_dtype := coord_dtype (input_coords self) |} in
  let ndim_ := fst (ndims self) in
  ident_map <- AffineTransform_init (Arr2 float64 (ndim_ + 1) (eye (ndim_ + 1)))
                 new_input_coords (input_coords self) ;;
  compose [self; ident_map].

(** ** [AffineTransform.from_params] *)

(** [params] is one homogeneous matrix or a pair [(A, b)]. *)
Inductive params_arg : Type :=
| ParamsMatrix (a : ndarray)
| ParamsPair (A b : ndarray).

(** Modelled from the spec: [affines.from_matrix_vector] on arrays, for a
    matrix [A] and a vector [b] with one entry for each row of [A]. *)
Definition from_matrix_vector_arr (A b : ndarray) : res ndarray :=
  match A, b with
  | Arr2 d nc rows, Arr1 _ v =>
      if Nat.eqb (length v) (length rows)
      then Ok (Arr2 d (nc + 1) (from_matrix_vector nc rows v))
      else Raise (ValueError "shape mismatch")
  | _, _ => Raise (ValueError "shape mismatch")
  end.

Definition from_params (innames outnames : list string) (params : params_arg) : res cmap :=
  params <- match params with
            | ParamsMatrix a => Ok a
            | ParamsPair A b => from_matrix_vector_arr A b
            end ;;
  if arr_shape_is (length outnames + 1) (length innames + 1) params
  then AffineTransform_init params
         {| coord_names := innames; name := "input"; coord_dtype := float64 |}
         {| coord_names := outnames; name := "output"; coord_dtype := float64 |}
  else Raise (ValueError "shape and number of axis names do not agree").

(** ** Arrays as mutable objects

    [copy] is about aliasing: an [AffineTransform] refers to its matrix, which
    numpy lets the caller change in place ([cm.affine[0,0] = 2.0]).  The
    store holds the arrays; an object refers to its matrix by its location. *)

Definition store := list ndarray.

Record affine_obj : Type := {
  affine_ref : nat;
  obj_input_coords : CoordinateSystem;
  obj_output_coords : CoordinateSystem
}.

Definition load (h : store) (l : nat) : option ndarray := nth_error h l.

(** A new array: its location is fresh. *)
Definition alloc (h : store) (a : ndarray) : store * nat := (h ++ [a], length h).

(** [np.asarray(a, dtype=d)]: the array itself when it has the precision
    [d], a new array otherwise. *)
Definition asarray_ref (h : store) (l : nat) (a : ndarray) (d : dtype) : store * nat :=
  if dtype_eqb (arr_dtype a) d then (h, l) else alloc h (astype d a).

Definition dangling {A : Type} : res A := Raise (OtherError "dangling reference").

(** [AffineTransform.__init__] on an array of the store. *)
Definition AffineTransform_init_ref (h : store) (l : nat) (ic oc : CoordinateSystem)
  : res (store * affine_obj) :=
  match load h l with
  | None => dangling
  | Some a =>
      let dt := safe_dtype (arr_dtype a) [coord_dtype ic; coord_dtype oc] in
      let ic' := {| coord_names := coord_names ic; name := name ic; coord_dtype := dt |} in
      let oc' := {| coord_names := coord_names oc; name := name oc; coord_dtype := dt |} in
      let '(h', l') := asarray_ref h l a dt in
      if arr_shape_is (ndim oc' + 1) (ndim ic' + 1) (astype dt a)
      then Ok (h', {| affine_ref := l'; obj_input_coords := ic'; obj_output_coords := oc' |})
      else Raise (ValueError "coordinate lengths do not match affine matrix shape")
  end.

(** [AffineTransform.copy]: [self._affine.copy()] is a new array. *)
Definition copy_ref (h : store) (self : affine_obj) : res (store * affine_obj) :=
  match load h (affine_ref self) with
  | None => dangling
  | Some a =>
      let '(h1, l1) := alloc h a in
      AffineTransform_init_ref h1 l1 (obj_input_coords self) (obj_output_coords self)
  end.

(** [a[i, j] = v] on the array at location [l]. *)
Definition setitem (h : store) (l : nat) (i j : Z) (v : Qc) : res store :=
  match load h l with
  | None => dangling
  | Some (Arr1 _ _) => Raise (IndexError "too many indices for array")
  | Some (Arr2 d nc rows) =>
      match py_index (length rows) i, py_index nc j with
      | Some r, Some c =>
          Ok (set_nth l (Arr2 d nc (set_nth r (set_nth c v (nth r rows [])) rows)) h)
      | _, _ => Raise (IndexError "index out of bounds")
      end
  end.

(** The transform that an object is, in a given store. *)
Definition view (h : store) (o : affine_obj) : option cmap :=
  match load h (affine_ref o) with
  | Some a => Some (AffineTransform a (obj_input_coords o) (obj_output_coords o))
  | None => None
  end.

(** The pure [copy] of the two classes. *)
Definition copy (c : cmap) : res cmap :=
  match c with
  | CoordinateMap f ic oc g => CoordinateMap_init f ic oc g
  | AffineTransform a ic oc => AffineTransform_init a ic oc
  end.

(** ** The transforms of the docstrings *)

(** [CoordinateSystem(names)]: the label is empty and the precision is the
    default floating one. *)
Definition CS (names : list string) : CoordinateSystem :=
  {| coord_names := names; name := ""; coord_dtype := float64 |}.

Definition diag_1231 : matrix :=
  [[qz 1; 0; 0; 0]; [0; qz 2; 0; 0]; [0; 0; qz 3; 0]; [0; 0; 0; qz 1]].

(** [AffineTransform(np.diag([1, 2, 3, 1]), CS('ijk'), CS('xyz'))] *)
Definition ijk_to_xyz : res cmap :=
  AffineTransform_init (Arr2 int64 4 diag_1231) (CS ["i"; "j"; "k"]%string)
    (CS ["x"; "y"; "z"]%string).


(** An affine transform of integer precision: the identity on one axis. *)
Definition int_identity : cmap :=
  AffineTransform (Arr2 int32 2 [[qz 1; 0]; [0; qz 1]])
    {| coord_names := ["i"%string]; name := "input"; coord_dtype := int32 |}
    {| coord_names := ["x"%string]; name := "output"; coord_dtype := int32 |}.


(** [AffineTransform.from_params('i', 'x', np.diag([2., 1.]))], as built. *)
Definition double_i_to_x : cmap :=
  AffineTransform (Arr2 float64 2 [[qz 2; 0]; [0; qz 1]])
    {| coord_names := ["i"%string]; name := "input"; coord_dtype := float64 |}
    {| coord_names := ["x"%string]; name := "output"; coord_dtype := float64 |}.


(** The inverse of [double_i_to_x]. *)
Definition half_x_to_i : cmap :=
  AffineTransform (Arr2 float64 2 [[Q2Qc (1 # 2); 0]; [0; qz 1]])
    {| coord_names := ["x"%string]; name := "output"; coord_dtype := float64 |}
    {| coord_names := ["i"%string]; name := "input"; coord_dtype := float64 |}.





(** The transform that [ijk_to_xyz] builds. *)
Definition diag_ijk : cmap :=
  AffineTransform (Arr2 float64 4 diag_1231) (CS ["i"; "j"; "k"]%string)
    (CS ["x"; "y"; "z"]%string).

(** [cm = AffineTransform(np.eye(4), CS('ijk'), CS('xyz'))] in a store that
    holds its matrix at location 0. *)
Definition eye4_store : store := [Arr2 float64 4 (eye 4)].
Definition eye4_obj : affine_obj :=
  {| affine_ref := 0; obj_input_coords := CS ["i"; "j"; "k"]%string;
     obj_output_coords := CS ["x"; "y"; "z"]%string |}.

(** The transform [c] after [c.affine[i, j] = v]. *)
Definition assign_entry (c : cmap) (i j : nat) (v : Qc) : cmap :=
  match c with
  | AffineTransform (Arr2 d nc M) ic oc =>
      AffineTransform (Arr2 d nc (set_nth i (set_nth j v (nth i M [])) M)) ic oc
  | _ => c
  end.

(** ** Reordering and renaming the output axes *)

Fixpoint check_output_keys (keys : list string) (names : list string) : res unit :=
  match keys with
  | [] => Ok tt
  | n :: keys' =>
      if name_in n names then check_output_keys keys' names
      else Raise (ValueError ("no output coordinate named " ++ n)%string)
  end.

(** [renamed_output]; the label that replaces an empty [name] is read from
    [self.input_coords], as in the source. *)
Definition renamed_output (self : cmap) (newnames : rename_dict) (name_ : string) : res cmap :=
  let name_ := new_name name_ (input_coords self) in
  _ <- check_output_keys (map fst newnames) (coord_names (output_coords self)) ;;
  let new_coord_names := rename_axes newnames (coord_names (output_coords self)) in
  let new_output_coords := {| coord_names := new_coord_names; name := name_;
                              coord_dtype := coord_dtype (output_coords self) |} in
  let ndim_ := snd (ndims self) in
  ident_map <- AffineTransform_init (Arr2 float64 (ndim_ + 1) (eye (ndim_ + 1)))
                 (output_coords self) new_output_coords ;;
  compose [ident_map; self].

(** The first lines of [reordered_output]: the order as a list of integers. *)
Definition normalize_output_order (self : cmap) (order : order_arg) : res (list Z) :=
  let ndim_ := snd (ndims self) in
  match order with
  | OrderNone => Ok (map Z.of_nat (rev (seq 0 ndim_)))
  | OrderNames [] => Raise (IndexError "list index out of range")
  | OrderNames ss =>
      l <- mapM (cs_index (output_coords self)) ss ;; Ok (map Z.of_nat l)
  | OrderInts [] => Raise (IndexError "list index out of range")
  | OrderInts l => Ok l
  end.

(** [reordered_output]: the permutation matrix is filled as in
    [reordered_input] and transposed. *)
Definition reordered_output (self : cmap) (order : order_arg) (name_ : string) : res cmap :=
  let name_ := new_name name_ (output_coords self) in
  let ndim_ := snd (ndims self) in
  order <- normalize_output_order self order ;;
  newaxes <- mapM (getitem (coord_names (output_coords self))) order ;;
  let newoutcoords := {| coord_names := newaxes; name := name_;
                         coord_dtype := coord_dtype (output_coords self) |} in
  perm <- fill_perm (ndim_ + 1) 0 order (initial_perm ndim_) ;;
  A <- AffineTransform_init
         (Arr2 (coord_dtype (output_coords self)) (ndim_ + 1) (transpose (ndim_ + 1) perm))
         (output_coords self) newoutcoords ;;
  compose [A; self].

(** ** [AffineTransform.from_start_step] and [AffineTransform.identity] *)





(** ** [concat] *)

Definition concat (coordmap : cmap) (axis_name : string) (append : bool) : res cmap :=
  let coords := CS [axis_name] in
  concat_ <- AffineTransform_init (Arr2 float64 2 (eye 2)) coords coords ;;
  if negb append then product [concat_; coordmap] else product [coordmap; concat_].

(** ** Predicates used in the statements *)


Definition eq_holds (x y : vec) (e : equation) : Prop := dot (fst e) x = dot (snd e) y.

Definition eqs_wf (n w : nat) (eqs : list equation) : Prop :=
  Forall (fun e => length (fst e) = n /\ length (snd e) = w) eqs.

(** What [AffineTransform.__init__] establishes. *)
Definition affine_wf (c : cmap) : Prop :=
  match c with
  | AffineTransform (Arr2 d nc M) ic oc =>
      nc = (ndim ic + 1)%nat /\ has_shape (ndim oc + 1) (ndim ic + 1) M
      /\ coord_dtype ic = d /\ coord_dtype oc = d
  | _ => False
  end.

(** The matrix of an [AffineTransform]. *)
Definition affine_matrix (c : cmap) : matrix :=
  match c with
  | AffineTransform a _ _ => arr_rows a
  | _ => []
  end.

(** [f] computes the function [g] of [n] variables with [m] values: on a
    point it returns [g] of the point, as a point or as a batch of one row, and
    on a batch it returns the batch of the values. *)
Definition evaluates (f : callable) (n m : nat) (g : vec -> vec) : Prop :=
  (forall x, length x = n -> length (g x) = m)
  /\ (forall d x, length x = n ->
        exists d', f (Arr1 d x) = Ok (Arr1 d' (g x))
                   \/ f (Arr1 d x) = Ok (Arr2 d' m [g x]))
  /\ (forall d rows, Forall (fun r => length r = n) rows ->
        exists d', f (Arr2 d n rows) = Ok (Arr2 d' m (map g rows))).

(** The affine function with linear block [A] and translation [b]. *)
Definition affine_map (A : matrix) (b : vec) : vec -> vec :=
  fun x => vadd (matvec A x) b.

(** [origin + step * e_i] *)
Definition shifted (n : nat) (step : Qc) (origin : vec) (i : nat) : vec :=
  vadd (vscale step (unit_vec n i)) origin.

(** The forward difference of [g] along axis [i]. *)
Definition forward_difference (g : vec -> vec) (n : nat) (step : Qc) (origin : vec)
    (i : nat) : vec :=
  vdiv (vsub (g (shifted n step origin i)) (g origin)) step.

(** [f] maps a batch of points of [n] coordinates row by row through [g],
    to points of [m] coordinates. *)
Definition maps_batches (f : callable) (n m : nat) (g : vec -> vec) : Prop :=
  (forall x, length x = n -> length (g x) = m)
  /\ (forall d rows, Forall (fun r => length r = n) rows ->
        exists d', f (Arr2 d n rows) = Ok (Arr2 d' m (map g rows))).

(** The linear block and the translation of the matrix of a transform. *)
Definition linear_block (c : cmap) : matrix := fst (to_matrix_vector (affine_matrix c)).
Definition translation (c : cmap) : vec := snd (to_matrix_vector (affine_matrix c)).

(** The function that an affine transform computes on a point. *)
Definition point_map (c : cmap) : vec -> vec := affine_map (linear_block c) (translation c).




(** The property [inverse] of [c] does not raise, and the inverse it may
    return maps batches of output points to batches of input points. *)
Definition inverse_ok (c : cmap) : Prop :=
  inverse c = Ok None
  \/ exists i h, inverse c = Ok (Some i)
                 /\ maps_batches (function i) (ndim (output_coords c))
                                  (ndim (input_coords c)) h.



(** The function of points that a coordinate map computes: the row that its
    function returns on a batch of one point. *)
Definition point_fun (c : cmap) : vec -> vec := fun x =>
  match function c (Arr2 (coord_dtype (input_coords c)) (ndim (input_coords c)) [x]) with
  | Ok (Arr2 _ _ [y]) => y
  | _ => []
  end.

(** A coordinate map of the data model: an [AffineTransform] is as its
    constructor builds it, and the function maps a batch of input points, row
    by row, to a batch of output points. *)
Definition cmap_valid (c : cmap) : Prop :=
  (is_AffineTransform c = true -> affine_wf c)
  /\ maps_batches (function c) (ndim (input_coords c)) (ndim (output_coords c)) (point_fun c).

Definition ndim_in (c : cmap) : nat := ndim (input_coords c).
Definition ndim_out (c : cmap) : nat := ndim (output_coords c).





(** A coordinate map of the data model whose inverse function, when there is
    one, is a function from the output space to the input space. *)
Definition cmap_ok (c : cmap) : Prop := cmap_valid c /\ inverse_ok c.



(** * Properties *)

(** ** Vectors *)

Section Vectors.

Lemma vzip_length f (u v : vec) : length u = length v -> length (vzip f u v) = length u.
Proof.
  revert v; induction u as [|a u IH]; intros [|b v]; simpl; intros H; try discriminate; auto.
Qed.

Lemma vadd_length u v : length u = length v -> length (vadd u v) = length u.
Proof. apply vzip_length. Qed.

Lemma vsub_length u v : length u = length v -> length (vsub u v) = length u.
Proof. apply vzip_length. Qed.

Lemma vscale_length c v : length (vscale c v) = length v.
Proof. apply length_map. Qed.

Lemma vdiv_length v c : length (vdiv v c) = length v.
Proof. apply length_map. Qed.

Lemma zeros_length n : length (zeros n) = n.
Proof. apply repeat_length. Qed.



Lemma dot_zeros_l n u : dot (zeros n) u = 0.
Proof.
  revert u; induction n as [|n IH]; intros [|b u]; simpl; auto.
  unfold zeros in IH. rewrite IH. ring.
Qed.

Lemma dot_vadd_l u v x :
  length u = length v -> dot (vadd u v) x = dot u x + dot v x.
Proof.
  revert v x; induction u as [|a u IH]; intros [|b v] [|c x]; simpl; intros H;
    try discriminate; try ring.
  unfold vadd in IH. rewrite IH by lia. ring.
Qed.

Lemma dot_vsub_l u v x :
  length u = length v -> dot (vsub u v) x = dot u x - dot v x.
Proof.
  revert v x; induction u as [|a u IH]; intros [|b v] [|c x]; simpl; intros H;
    try discriminate; try ring.
  unfold vsub in IH. rewrite IH by lia. ring.
Qed.

Lemma dot_vscale_l c u x : dot (vscale c u) x = c * dot u x.
Proof.
  revert x; induction u as [|a u IH]; intros [|b x]; simpl; try ring.
  unfold vscale in IH. rewrite IH. ring.
Qed.

Lemma dot_vdiv_l u c x : dot (vdiv u c) x = dot u x / c.
Proof.
  revert x; induction u as [|a u IH]; intros [|b x]; simpl;
    try (unfold Qcdiv; ring).
  unfold vdiv in IH. rewrite IH. unfold Qcdiv. ring.
Qed.




End Vectors.

(** ** Matrices *)

Section Matrices.

Lemma matvec_length M x : length (matvec M x) = length M.
Proof. apply length_map. Qed.

Lemma vecmat_length w x N :
  Forall (fun r => length r = w) N -> length (vecmat w x N) = w.
Proof.
  intros HN; revert x; induction HN as [|r N Hr HN IH]; intros [|a x]; simpl;
    try apply zeros_length.
  rewrite vadd_length; rewrite vscale_length; auto. now rewrite IH.
Qed.

Lemma dot_vecmat w x N y :
  Forall (fun r => length r = w) N ->
  dot (vecmat w x N) y = dot x (matvec N y).
Proof.
  intros HN; revert x; induction HN as [|r N Hr HN IH]; intros [|a x]; simpl;
    try apply dot_zeros_l.
  rewrite dot_vadd_l, dot_vscale_l, IH; auto.
  rewrite vscale_length, vecmat_length; auto.
Qed.



Lemma dot_indicator i y s :
  dot (map (fun j => if Nat.eqb i j then 1 else 0) (seq s (length y))) y
  = if Nat.leb s i then nth (i - s) y 0 else 0.
Proof.
  revert s; induction y as [|b y IH]; intros s; simpl.
  - destruct (Nat.leb s i); [now destruct (i - s)%nat | reflexivity].
  - rewrite IH. destruct (Nat.eqb_spec i s) as [->|Hne].
    + rewrite Nat.leb_refl, Nat.sub_diag.
      replace (Nat.leb (S s) s) with false by (symmetry; apply Nat.leb_gt; lia). ring.
    + destruct (Nat.leb_spec s i), (Nat.leb_spec (S s) i); try lia; try ring.
      replace (i - s)%nat with (S (i - S s)) by lia. ring.
Qed.

Lemma dot_unit_vec n i y : length y = n -> dot (unit_vec n i) y = nth i y 0.
Proof.
  intros <-. unfold unit_vec. rewrite dot_indicator. simpl. now rewrite Nat.sub_0_r.
Qed.

Lemma unit_vec_length n i : length (unit_vec n i) = n.
Proof. unfold unit_vec. now rewrite length_map, length_seq. Qed.

Lemma map_nth_seq (l : vec) : map (fun i => nth i l 0) (seq 0 (length l)) = l.
Proof.
  induction l as [|a l IH]; simpl; auto.
  f_equal. rewrite <- seq_shift, map_map. exact IH.
Qed.

Lemma matvec_eye n y : length y = n -> matvec (eye n) y = y.
Proof.
  intros H. unfold matvec, eye. rewrite map_map.
  rewrite (map_ext _ (fun i => nth i y 0)) by (intros; now apply dot_unit_vec).
  subst n. apply map_nth_seq.
Qed.

Lemma eye_shape n : has_shape n n (eye n).
Proof.
  split; [unfold eye; now rewrite length_map, length_seq|].
  apply Forall_forall; intros r Hr. apply in_map_iff in Hr as (i & <- & _).
  apply unit_vec_length.
Qed.



End Matrices.

(** ** Gaussian elimination computes the inverse *)

Section Inversion.

Lemma Qc_eqb_eq a b : Qc_eqb a b = true <-> a = b.
Proof.
  unfold Qc_eqb. rewrite Qeq_bool_iff. split; [apply Qc_is_canon | now intros ->].
Qed.

Lemma Qc_eqb_neq a b : Qc_eqb a b = false <-> a <> b.
Proof.
  rewrite <- Qc_eqb_eq. destruct (Qc_eqb a b); split; congruence.
Qed.

Lemma find_pivot_some n w eqs p pc pr others :
  eqs_wf (S n) w eqs ->
  find_pivot eqs = Some ((p, pc, pr), others) ->
  p <> 0 /\ length pc = n /\ length pr = w /\ eqs_wf (S n) w others
  /\ S (length others) = length eqs
  /\ forall x y, Forall (eq_holds x y) eqs
                 <-> eq_holds x y (p :: pc, pr) /\ Forall (eq_holds x y) others.
Proof.
  intros Hwf; revert others; induction Hwf as [|[c r] eqs [Hc Hr] Hwf IH];
    intros others H; simpl in *; [discriminate|].
  destruct c as [|a c']; [discriminate|].
  destruct (Qc_eqb a 0) eqn:Ea.
  - destruct (find_pivot eqs) as [[q oth]|]; [|discriminate].
    inversion H; subst; clear H.
    destruct (IH oth eq_refl) as (Hp & Hpc & Hpr & Hoth & Hlen & Hsem).
    repeat split; auto.
    + constructor; auto.
    + inversion H; subst. apply Hsem in H3. tauto.
    + inversion H; subst. apply Hsem in H3. constructor; tauto.
    + intros [Hpv Hall]. inversion Hall; subst. constructor; auto.
      apply Hsem. tauto.
  - inversion H; subst; clear H. apply Qc_eqb_neq in Ea.
    repeat split; auto.
    + now inversion H.
    + now inversion H.
    + intros [Hpv Hall]. now constructor.
Qed.


Lemma eliminate_wf n w p pc pr e :
  length pc = n -> length pr = w ->
  length (fst e) = S n /\ length (snd e) = w ->
  length (fst (eliminate p pc pr e)) = n /\ length (snd (eliminate p pc pr e)) = w.
Proof.
  destruct e as [[|a c'] r]; simpl; intros Hpc Hpr [Hc Hr]; [discriminate|].
  rewrite !vsub_length; rewrite ?vscale_length; lia.
Qed.

Lemma eliminate_holds n w p pc pr e x0 x' y :
  p <> 0 -> length pc = n -> length pr = w ->
  length (fst e) = S n /\ length (snd e) = w ->
  eq_holds (x0 :: x') y (p :: pc, pr) ->
  (eq_holds (x0 :: x') y e <-> eq_holds x' y (eliminate p pc pr e)).
Proof.
  destruct e as [[|a c'] r]; simpl; intros Hp Hpc Hpr [Hc Hr] Hpiv; [discriminate|].
  unfold eq_holds in *; simpl in *.
  rewrite !dot_vsub_l, !dot_vscale_l by (rewrite vscale_length; lia).
  rewrite <- Hpiv.
  split; intros H.
  - rewrite <- H. field; auto.
  - assert (E : a * x0 + dot c' x'
                = dot c' x' - a / p * dot pc x' + a / p * (p * x0 + dot pc x'))
      by (field; auto).
    rewrite E, H. ring.
Qed.

Lemma Forall_map_iff {A B} (P : B -> Prop) (f : A -> B) (l : list A) :
  Forall P (map f l) <-> Forall (fun a => P (f a)) l.
Proof. apply Forall_map. Qed.

Lemma Forall_impl_in {A} (P Q : A -> Prop) (l : list A) :
  (forall a, In a l -> P a -> Q a) -> Forall P l -> Forall Q l.
Proof.
  intros H HP. apply Forall_forall. intros a Ha. apply H; auto.
  eapply Forall_forall in HP; eauto.
Qed.

Lemma solve_some w n : forall eqs N,
  eqs_wf n w eqs -> length eqs = n -> solve w n eqs = Some N ->
  has_shape n w N
  /\ forall x y, length x = n ->
       (Forall (eq_holds x y) eqs <-> x = matvec N y).
Proof.
  induction n as [|n IH]; intros eqs N Hwf Hlen Hs; simpl in Hs.
  - inversion Hs; subst. destruct eqs; [|discriminate].
    split; [split; [reflexivity | constructor]|].
    intros [|a x] y Hx; [|discriminate]. split; auto.
  - destruct (find_pivot eqs) as [[[[p pc] pr] others]|] eqn:Ep; [|discriminate].
    destruct (find_pivot_some _ _ _ _ _ _ _ Hwf Ep) as (Hp & Hpc & Hpr & Hoth & Hl & Hsem).
    destruct (solve w n (map (eliminate p pc pr) others)) as [N'|] eqn:Es; [|discriminate].
    inversion Hs; subst N; clear Hs.
    assert (Hwf' : eqs_wf n w (map (eliminate p pc pr) others)).
    { apply Forall_map_iff. eapply Forall_impl; [|exact Hoth].
      intros e He. now apply eliminate_wf. }
    destruct (IH _ N' Hwf') as ([HN1 HN2] & HN); [rewrite length_map; lia | exact Es |].
    split.
    + split; [simpl; lia|]. constructor; auto.
      rewrite vdiv_length, vsub_length; auto. now rewrite vecmat_length.
    + intros [|x0 x'] y Hx; [discriminate|]. injection Hx as Hx.
      rewrite Hsem. simpl.
      assert (Hrow : dot (vdiv (vsub pr (vecmat w pc N')) p) y
                     = (dot pr y - dot pc (matvec N' y)) / p).
      { rewrite dot_vdiv_l, dot_vsub_l, dot_vecmat; auto. now rewrite vecmat_length. }
      rewrite Hrow. split.
      * intros [Hpiv Hall].
        assert (Hx' : x' = matvec N' y).
        { apply HN; auto. apply Forall_map_iff.
          eapply Forall_impl_in; [|exact Hall]. intros e Hin He.
          assert (Hwe := proj1 (Forall_forall _ _) Hoth e Hin).
          apply (eliminate_holds n w p pc pr e x0 x' y Hp Hpc Hpr Hwe Hpiv); exact He. }
        rewrite <- Hx'. f_equal; auto.
        unfold eq_holds in Hpiv; simpl in Hpiv. rewrite <- Hpiv. field; auto.
      * intros E. injection E as E0 E'.
        assert (Hpiv : eq_holds (x0 :: x') y (p :: pc, pr)).
        { unfold eq_holds; simpl. rewrite E0, <- E'. field; auto. }
        split; auto.
        assert (Hall : Forall (eq_holds x' y) (map (eliminate p pc pr) others))
          by (apply HN; auto).
        apply (proj1 (Forall_map_iff (eq_holds x' y) (eliminate p pc pr) others)) in Hall.
        eapply Forall_impl_in; [|exact Hall]. intros e Hin He.
        assert (Hwe := proj1 (Forall_forall _ _) Hoth e Hin).
        apply (eliminate_holds n w p pc pr e x0 x' y Hp Hpc Hpr Hwe Hpiv); exact He.
Qed.


Lemma combine_holds (M E : matrix) x y :
  length M = length E ->
  (Forall (eq_holds x y) (combine M E) <-> matvec M x = matvec E y).
Proof.
  revert E; induction M as [|r M IH]; intros [|e E] H; simpl in *; try discriminate.
  - split; auto.
  - split.
    + intros HF; inversion HF; subst. f_equal; auto. apply IH; auto.
    + intros HE; injection HE as H1 H2. constructor; auto. apply IH; auto.
Qed.

Lemma combine_wf n w (M E : matrix) :
  Forall (fun r => length r = n) M -> Forall (fun r => length r = w) E ->
  eqs_wf n w (combine M E).
Proof.
  intros HM; revert E; induction HM as [|r M Hr HM IH]; intros E HE; simpl.
  - constructor.
  - destruct HE as [|e E He HE]; constructor; auto. now apply IH.
Qed.

Lemma inv_matrix_some n M N :
  has_shape n n M -> inv_matrix n M = Some N ->
  has_shape n n N
  /\ forall x y, length x = n -> length y = n ->
       (matvec M x = y <-> x = matvec N y).
Proof.
  intros [HM1 HM2] H. unfold inv_matrix in H.
  destruct (eye_shape n) as [HE1 HE2].
  assert (HL : length (combine M (eye n)) = n) by (rewrite length_combine; lia).
  destruct (solve_some n n _ N (combine_wf n n M (eye n) HM2 HE2) HL H) as [HN Hsem].
  split; auto. intros x y Hx Hy.
  rewrite <- Hsem, combine_holds, matvec_eye by (auto; lia). tauto.
Qed.





End Inversion.

(** ** Affine transforms *)

Section Affine.




Lemma from_matrix_vector_shape r n A b :
  has_shape r n A -> length b = r ->
  has_shape (r + 1) (n + 1) (from_matrix_vector n A b).
Proof.
  intros [H1 H2] Hb. unfold from_matrix_vector. split.
  - rewrite length_app, length_map, length_combine, H1, Hb. simpl. lia.
  - apply Forall_app; split.
    + apply Forall_forall; intros row Hrow.
      apply in_map_iff in Hrow as ([a x] & <- & Hin). simpl.
      apply in_combine_l in Hin. rewrite length_app. simpl.
      assert (Ha := proj1 (Forall_forall _ _) H2 a Hin). simpl in Ha. now rewrite Ha.
    + constructor; [|constructor]. rewrite length_app, zeros_length. reflexivity.
Qed.

Lemma safe_dtype2_idem d : safe_dtype2 d d = d.
Proof. unfold safe_dtype2. now rewrite Nat.leb_refl. Qed.

Lemma has_shapeb_spec r c M : has_shapeb r c M = true <-> has_shape r c M.
Proof.
  unfold has_shapeb, has_shape. rewrite andb_true_iff, Nat.eqb_eq, forallb_forall, Forall_forall.
  split; intros [H1 H2]; split; auto; intros x Hx; apply Nat.eqb_eq; auto.
Qed.

Lemma AffineTransform_init_ok (aff : ndarray) (ic oc : CoordinateSystem) d M :
  aff = Arr2 d (ndim ic + 1) M -> length M = (ndim oc + 1)%nat ->
  AffineTransform_init aff ic oc =
  let dt := safe_dtype d [coord_dtype ic; coord_dtype oc] in
  Ok (AffineTransform (Arr2 dt (ndim ic + 1) M)
        {| coord_names := coord_names ic; name := name ic; coord_dtype := dt |}
        {| coord_names := coord_names oc; name := name oc; coord_dtype := dt |}).
Proof.
  intros -> HM. unfold AffineTransform_init; simpl. unfold ndim; simpl.
  unfold ndim in HM. now rewrite HM, !Nat.eqb_refl.
Qed.

Lemma AffineTransform_init_wf aff ic oc c :
  arr_wf aff -> AffineTransform_init aff ic oc = Ok c -> affine_wf c.
Proof.
  unfold AffineTransform_init, arr_shape_is, ndim. intros Hwf H.
  destruct aff as [d v|d nc M]; simpl in *; [discriminate|].
  destruct (Nat.eqb (length M) (length (coord_names oc) + 1)) eqn:E1; [|discriminate].
  destruct (Nat.eqb nc (length (coord_names ic) + 1)) eqn:E2; [|discriminate].
  simpl in H. inversion H; subst c; clear H.
  apply Nat.eqb_eq in E1, E2. simpl. unfold ndim; simpl. subst nc. repeat split; auto.
Qed.

(** The forward function of a well-formed transform, on a batch of points. *)
Lemma affine_function_batch d nc M dx k xs :
  k = (nc - 1)%nat ->
  affine_function (Arr2 d nc M) (Arr2 dx k xs)
  = Ok (Arr2 (safe_dtype2 dx d) (length M - 1)
          (map (fun r => vadd (matvec (fst (to_matrix_vector M)) r)
                              (snd (to_matrix_vector M))) xs)).
Proof.
  intros ->. unfold affine_function. destruct (to_matrix_vector M) as [A b]. simpl.
  now rewrite Nat.eqb_refl.
Qed.

End Affine.

(** ** The inverse of an affine transform *)

Section Inverse.



Lemma affine_wf_inv c :
  affine_wf c ->
  exists d M ic oc,
    c = AffineTransform (Arr2 d (ndim ic + 1) M) ic oc
    /\ has_shape (ndim oc + 1) (ndim ic + 1) M
    /\ coord_dtype ic = d /\ coord_dtype oc = d.
Proof.
  destruct c as [f ic oc g|[d v|d nc M] ic oc]; simpl; try tauto.
  intros (-> & HM & Hi & Ho). now exists d, M, ic, oc.
Qed.




End Inverse.

(** ** Evaluation of an affine transform *)

Ltac qc_equal :=
  match goal with
  | |- @eq Qc _ _ => apply Qc_is_canon; vm_compute; reflexivity
  | |- _ => reflexivity
  | |- _ => f_equal; qc_equal
  end.

Section Evaluation.



End Evaluation.

Ltac shape_tac := apply has_shapeb_spec; reflexivity.

Ltac affine_wf_tac :=
  simpl; split; [reflexivity|]; split; [shape_tac|]; split; reflexivity.

Section EvaluationClaims.



End EvaluationClaims.

Section InverseClaims.









End InverseClaims.

(** ** [linearize] *)

Section Linearize.

Lemma stretch_same {A} n (l : list A) : length l = n -> stretch n l = Some l.
Proof. intros H. unfold stretch. now rewrite H, Nat.eqb_refl. Qed.

Lemma all_some_stretch c (rows : matrix) :
  Forall (fun r => length r = c) rows -> all_some (map (stretch c) rows) = Some rows.
Proof.
  induction 1 as [|r rows Hr H IH]; simpl; auto.
  now rewrite (stretch_same c r Hr), IH.
Qed.

Lemma broadcast_mat_same r c rows :
  has_shape r c rows -> broadcast_mat r c rows = Ok rows.
Proof.
  intros [H1 H2]. unfold broadcast_mat.
  rewrite (all_some_stretch c rows H2). cbv beta iota.
  now rewrite (stretch_same r rows H1).
Qed.

Lemma bcast_dim_same n : bcast_dim n n = Some n.
Proof. unfold bcast_dim. now rewrite Nat.eqb_refl. Qed.


Lemma column_length j (M : matrix) : length (column j M) = length M.
Proof. apply length_map. Qed.

Lemma transpose_shape nc (M : matrix) : has_shape nc (length M) (transpose nc M).
Proof.
  split; [unfold transpose; now rewrite length_map, length_seq|].
  apply Forall_forall; intros r Hr. apply in_map_iff in Hr as (j & <- & _).
  apply column_length.
Qed.



Lemma column_vdiv j s (D : matrix) :
  column j (map (fun r => vdiv r s) D) = vdiv (column j D) s.
Proof.
  unfold column, vdiv. rewrite !map_map. apply map_ext. intros r.
  revert j; induction r as [|a r IH]; intros [|j]; simpl; auto; unfold Qcdiv; ring.
Qed.

Lemma transpose_vdiv m s (D : matrix) :
  map (fun r => vdiv r s) (transpose m D) = transpose m (map (fun r => vdiv r s) D).
Proof.
  unfold transpose. rewrite map_map. apply map_ext. intros j. now rewrite column_vdiv.
Qed.

Lemma combine_map_repeat {A} (F : A -> vec) (c : vec) (l : list A) :
  map (fun ab => vsub (fst ab) (snd ab)) (combine (map F l) (repeat c (length l)))
  = map (fun i => vsub (F i) c) l.
Proof. induction l as [|a l IH]; simpl; auto. now rewrite IH. Qed.

Lemma shifted_length n step o i : length o = n -> length (shifted n step o i) = n.
Proof.
  intros H. unfold shifted. rewrite vadd_length; rewrite vscale_length, unit_vec_length; auto.
Qed.

Lemma broadcast_vec_point m d b : length b = m -> broadcast_vec m (Arr1 d b) = Ok b.
Proof. intros H. simpl. now rewrite (stretch_same m b H). Qed.

Lemma broadcast_vec_row m d nc b : length b = m -> broadcast_vec m (Arr2 d nc [b]) = Ok b.
Proof. intros H. simpl. now rewrite (stretch_same m b H). Qed.

(** What [linearize] returns for a function of [n] variables. *)
Lemma linearize_evaluates f n m g step origin dt o :
  evaluates f n m g ->
  (origin = None /\ o = zeros n) \/ (exists d, origin = Some (Arr1 d o) /\ length o = n) ->
  exists d',
    linearize f n step origin dt
    = Ok (Arr2 d' (n + 1)
            (from_matrix_vector n
               (transpose m (map (forward_difference g n step o) (seq 0 n)))
               (g o))).
Proof.
  intros (Hlen & Hpt & Hbatch) Ho.
  assert (Hol : length o = n).
  { destruct Ho as [[_ ->]|(d & _ & H)]; auto. apply zeros_length. }
  unfold linearize.
  set (dtype := match dt with Some d => d | None => float64 end).
  assert (Horigin :
    match origin with
    | None => Ok (zeros n)
    | Some (Arr1 _ v) =>
        if Nat.eqb (length v) n then Ok v else Raise (ValueError "origin.shape != (ndimin,)")
    | Some (Arr2 _ _ _) => Raise (ValueError "origin.shape != (ndimin,)")
    end = Ok o).
  { destruct Ho as [[-> ->]|(d & -> & H)]; auto. now rewrite H, Nat.eqb_refl. }
  rewrite Horigin. cbn [bind].
  assert (Hrows1 : Forall (fun r => length r = n)
                     (map (fun i => vadd (vscale step (unit_vec n i)) o) (seq 0 n))).
  { apply Forall_forall. intros r Hr. apply in_map_iff in Hr as (i & <- & _).
    now apply (shifted_length n step o i). }
  assert (Hrows0 : Forall (fun r => length r = n) (repeat o n)).
  { apply Forall_forall. intros r Hr. apply repeat_spec in Hr. now subst r. }
  destruct (Hbatch dtype _ Hrows1) as [d1 E1].
  destruct (Hbatch dtype _ Hrows0) as [d0 E0].
  assert (Hbcol : exists b, f (Arr1 dtype o) = Ok b /\ broadcast_vec m b = Ok (g o)).
  { destruct (Hpt dtype o Hol) as [d' [E|E]]; eexists; (split; [exact E|]).
    - apply broadcast_vec_point; auto.
    - apply broadcast_vec_row; auto. }
  destruct Hbcol as (b & Eb & Hb).
  rewrite Eb; cbn [bind]. rewrite E1; cbn [bind]. rewrite E0; cbn [bind].
  rewrite Hb; cbn [bind].
  unfold arr_sub. rewrite !length_map, length_seq, repeat_length, !bcast_dim_same.
  rewrite !broadcast_mat_same.
  - cbn [bind]. rewrite map_repeat.
    replace (repeat (g o) n) with (repeat (g o) (length (seq 0 n)))
      by now rewrite length_seq.
    rewrite map_map, (combine_map_repeat (fun i => g (vadd (vscale step (unit_vec n i)) o))).
    rewrite transpose_vdiv, map_map.
    rewrite broadcast_mat_same; [cbn [bind]; eexists; reflexivity|].
    pose proof (transpose_shape m (map (fun x => vdiv (vsub (g (vadd (vscale step (unit_vec n x)) o)) (g o)) step) (seq 0 n))) as Hs.
    now rewrite length_map, length_seq in Hs.
  - split; [now rewrite length_map, repeat_length|].
    apply Forall_forall. intros r Hr. apply in_map_iff in Hr as (x & <- & Hx).
    apply Hlen. apply repeat_spec in Hx. now subst.
  - split; [now rewrite !length_map, length_seq|].
    apply Forall_forall. intros r Hr. apply in_map_iff in Hr as (x & <- & Hx).
    apply Hlen. eapply Forall_forall in Hrows1; eauto.
Qed.





Lemma affine_map_length (A : matrix) (b x : vec) :
  length A = length b -> length (affine_map A b x) = length b.
Proof.
  intros H. unfold affine_map. rewrite vadd_length; rewrite matvec_length; auto.
Qed.







End Linearize.

Section LinearizeClaims.




End LinearizeClaims.

(** ** Functions on batches *)

Section Batches.

Lemma maps_batches_compose f f' n m k g g' :
  maps_batches f n m g -> maps_batches f' m k g' ->
  maps_batches (fun x => y <- f x ;; f' y) n k (fun x => g' (g x)).
Proof.
  intros [Hg Hf] [Hg' Hf']. split.
  - intros x Hx. auto.
  - intros d rows Hrows. destruct (Hf d rows Hrows) as [d1 E1]. rewrite E1. simpl.
    destruct (Hf' d1 (map g rows)) as [d2 E2].
    + apply Forall_forall. intros r Hr. apply in_map_iff in Hr as (x & <- & Hx).
      apply Hg. eapply Forall_forall in Hrows; eauto.
    + exists d2. now rewrite E2, map_map.
Qed.

Lemma maps_batches_ext f n m g g' :
  (forall x, length x = n -> g x = g' x) ->
  maps_batches f n m g -> maps_batches f n m g'.
Proof.
  intros He [Hg Hf]. split.
  - intros x Hx. rewrite <- He; auto.
  - intros d rows Hrows. destruct (Hf d rows Hrows) as [d' E]. exists d'. rewrite E.
    do 2 f_equal. apply map_ext_in. intros x Hx. apply He.
    eapply Forall_forall in Hrows; eauto.
Qed.

Lemma call_maps_batches c g :
  maps_batches (function c) (ndim (input_coords c)) (ndim (output_coords c)) g ->
  evaluates (call c) (ndim (input_coords c)) (ndim (output_coords c)) g.
Proof.
  intros [Hg Hf]. split; [exact Hg|]. split.
  - intros d x Hx. exists (coord_dtype (output_coords c)). right.
    unfold call, checked_values at 1. rewrite Hx, Nat.eqb_refl. cbn [bind].
    destruct (Hf (coord_dtype (input_coords c)) [x]) as [d' E].
    { constructor; auto. }
    rewrite E. cbn [bind map]. unfold checked_values.
    now rewrite Nat.eqb_refl.
  - intros d rows Hrows. exists (coord_dtype (output_coords c)).
    unfold call, checked_values at 1. rewrite Nat.eqb_refl. cbn [bind].
    destruct (Hf (coord_dtype (input_coords c)) rows Hrows) as [d' E].
    rewrite E. cbn [bind]. unfold checked_values. now rewrite Nat.eqb_refl.
Qed.

Lemma CoordinateMap_init_maps_batches f ic oc invf g :
  maps_batches f (ndim ic) (ndim oc) g ->
  CoordinateMap_init f ic oc invf = Ok (CoordinateMap f ic oc invf).
Proof.
  intros H. unfold CoordinateMap_init.
  destruct (call_maps_batches (CoordinateMap f ic oc invf) g H) as (_ & _ & Hb).
  simpl in Hb. unfold zero_batch. simpl fst.
  destruct (Hb (coord_dtype ic) (repeat (zeros (ndim ic)) 10)) as [d' E].
  - apply Forall_forall. intros r Hr. apply repeat_spec in Hr. subst r. apply zeros_length.
  - now rewrite E.
Qed.

End Batches.

Section AffineBatches.

Lemma removelast_length {A} (l : list A) : length (removelast l) = (length l - 1)%nat.
Proof.
  induction l as [|a [|b l] IH]; simpl in *; auto. rewrite IH. lia.
Qed.

Lemma In_removelast {A} (l : list A) x : In x (removelast l) -> In x l.
Proof.
  induction l as [|a [|b l] IH]; simpl in *; auto. intros [H|H]; auto.
Qed.

Lemma to_matrix_vector_shape m n M :
  has_shape (m + 1) (n + 1) M ->
  has_shape m n (fst (to_matrix_vector M)) /\ length (snd (to_matrix_vector M)) = m.
Proof.
  intros [H1 H2]. unfold to_matrix_vector; simpl. repeat split.
  - rewrite length_map, removelast_length. lia.
  - apply Forall_forall. intros r Hr. apply in_map_iff in Hr as (r' & <- & Hr').
    rewrite removelast_length. apply In_removelast in Hr'.
    eapply Forall_forall in H2; eauto. simpl in H2. lia.
  - rewrite length_map, removelast_length. lia.
Qed.

Lemma affine_maps_batches c :
  affine_wf c ->
  maps_batches (function c) (ndim (input_coords c)) (ndim (output_coords c)) (point_map c).
Proof.
  intros Hwf. destruct (affine_wf_inv c Hwf) as (d & M & ic & oc & -> & HM & _).
  destruct (to_matrix_vector_shape _ _ _ HM) as [[HA1 HA2] Hb].
  unfold point_map, linear_block, translation.
  cbn [affine_matrix arr_rows input_coords output_coords function]. split.
  - intros x _. rewrite affine_map_length; [exact Hb | now rewrite HA1, Hb].
  - intros dx rows _. eexists. rewrite affine_function_batch by lia.
    destruct HM as [HM _]. rewrite HM.
    replace (ndim oc + 1 - 1)%nat with (ndim oc) by lia. reflexivity.
Qed.

Lemma inverse_affine_cases c :
  affine_wf c ->
  inverse c = Ok None
  \/ exists i, inverse c = Ok (Some i) /\ affine_wf i
               /\ ndim (input_coords i) = ndim (output_coords c)
               /\ ndim (output_coords i) = ndim (input_coords c).
Proof.
  intros Hwf. destruct (affine_wf_inv c Hwf) as (d & M & ic & oc & -> & HM & Hi & Ho).
  simpl. destruct (Nat.eqb_spec (length M) (ndim ic + 1)) as [E|E]; auto.
  destruct (inv_matrix (ndim ic + 1) M) as [N|] eqn:EN; auto.
  right.
  destruct (inv_matrix_some (ndim ic + 1) M N) as [[HN1 HN2] _]; auto.
  { split; [exact E | apply HM]. }
  assert (Eio : ndim ic = ndim oc) by (destruct HM as [HM _]; lia).
  replace (Arr2 (inv_dtype d) (ndim ic + 1) N) with (Arr2 (inv_dtype d) (ndim oc + 1) N)
    by (now rewrite Eio).
  rewrite (AffineTransform_init_ok _ oc ic (inv_dtype d) N eq_refl) by lia.
  cbv zeta. cbn [bind]. eexists. split; [reflexivity|].
  split; [|split; reflexivity].
  simpl. unfold ndim; simpl. fold (ndim ic) (ndim oc).
  repeat split; auto; try lia. now rewrite <- Eio.
Qed.

Lemma inverse_ok_affine c : affine_wf c -> inverse_ok c.
Proof.
  intros Hwf. destruct (inverse_affine_cases c Hwf) as [H|(i & H & Hi & E1 & E2)].
  - now left.
  - right. exists i, (point_map i). split; auto.
    rewrite <- E1, <- E2. now apply affine_maps_batches.
Qed.

Lemma point_fun_affine c x : affine_wf c -> point_fun c x = point_map c x.
Proof.
  intros Hwf. destruct (affine_wf_inv c Hwf) as (d & M & ic & oc & -> & _).
  unfold point_fun, point_map, linear_block, translation.
  cbn [function input_coords affine_matrix arr_rows].
  rewrite affine_function_batch by lia. reflexivity.
Qed.

Lemma affine_valid c : affine_wf c -> cmap_valid c.
Proof.
  intros Hwf. split; [auto|].
  apply (maps_batches_ext _ _ _ (point_map c)).
  - intros x _. symmetry. now apply point_fun_affine.
  - now apply affine_maps_batches.
Qed.

Lemma maps_batches_point_fun c g :
  maps_batches (function c) (ndim (input_coords c)) (ndim (output_coords c)) g ->
  maps_batches (function c) (ndim (input_coords c)) (ndim (output_coords c)) (point_fun c).
Proof.
  intros H. apply (maps_batches_ext _ _ _ g); auto.
  intros x Hx. unfold point_fun. destruct H as [_ Hf].
  destruct (Hf (coord_dtype (input_coords c)) [x]) as [d' E]; [constructor; auto|].
  now rewrite E.
Qed.

Lemma affine_ok c : affine_wf c -> cmap_ok c.
Proof. intros H. split; [now apply affine_valid | now apply inverse_ok_affine]. Qed.

End AffineBatches.

(** ** The loop of [compose] on affine transforms *)

Section ComposeLoop.

Lemma dtype_eqb_eq a b : dtype_eqb a b = true <-> a = b.
Proof. destruct a, b; simpl; split; intros H; try reflexivity; discriminate H. Qed.

Lemma cs_eqb_eq a b : cs_eqb a b = true <-> a = b.
Proof.
  unfold cs_eqb, names_eqb. split.
  - intros H. apply andb_true_iff in H as [H Hd]. apply andb_true_iff in H as [Hn Hl].
    destruct (list_eq_dec string_dec (coord_names a) (coord_names b)) as [En|]; [|discriminate].
    apply String.eqb_eq in Hl. apply dtype_eqb_eq in Hd.
    destruct a, b; simpl in *; congruence.
  - intros ->. destruct (list_eq_dec string_dec (coord_names b) (coord_names b)); [|congruence].
    rewrite String.eqb_refl. simpl. now apply dtype_eqb_eq.
Qed.


Lemma inverse_generic_ok f ic oc bw fw_g bw_g :
  maps_batches f (ndim ic) (ndim oc) fw_g ->
  match bw with
  | None => True
  | Some b => maps_batches b (ndim oc) (ndim ic) bw_g
  end ->
  inverse_ok (CoordinateMap f ic oc bw).
Proof.
  intros Hf Hb. destruct bw as [b|]; [|now left].
  right. exists (CoordinateMap b oc ic (Some f)), bw_g. simpl.
  rewrite (CoordinateMap_init_maps_batches b oc ic (Some f) bw_g Hb). split; auto.
Qed.


End ComposeLoop.

(** ** Homogeneous matrices *)

Section Homogeneous.











End Homogeneous.

(** ** [compose] on affine transforms *)

Section ComposeAffine.









Lemma record_dtype cs d :
  coord_dtype cs = d ->
  {| coord_names := coord_names cs; name := name cs; coord_dtype := d |} = cs.
Proof. intros <-. now destruct cs. Qed.


End ComposeAffine.

Section ComposeClaims.

Lemma last_rev_snoc {A} (l : list A) (x d : A) : last (l ++ [x]) d = x.
Proof. apply last_last. Qed.




End ComposeClaims.

(** ** [compose] across a mismatched seam *)

Section ComposeMismatch.








End ComposeMismatch.

Section ComposeMismatchClaims.




End ComposeMismatchClaims.

(** ** [product] *)

Section Product.




















End Product.

Section ProductClaims.








End ProductClaims.

(** ** Composition with an affine transform on the input side *)

Section ComposeWithAffine.

Lemma from_matrix_vector_rows r n A b :
  has_shape r n A -> length b = r ->
  Forall (fun row => length row = (n + 1)%nat) (from_matrix_vector n A b).
Proof. intros HA Hb. apply (from_matrix_vector_shape r n A b HA Hb). Qed.

Lemma compose_with_affine self A :
  cmap_ok self -> affine_wf A ->
  cs_eqb (input_coords self) (output_coords A) = true ->
  exists c,
    compose [self; A] = Ok c
    /\ cmap_ok c
    /\ coord_names (input_coords c) = coord_names (input_coords A)
    /\ name (input_coords c) = name (input_coords A)
    /\ coord_names (output_coords c) = coord_names (output_coords self)
    /\ name (output_coords c) = name (output_coords self)
    /\ is_AffineTransform c = is_AffineTransform self.
Proof.
  intros [[Hsa Hsf] Hsi] HA Hseam.
  unfold compose. simpl rev. cbv beta iota. simpl compose_loop. rewrite Hseam.
  apply cs_eqb_eq in Hseam.
  pose proof (affine_maps_batches A HA) as HAf. rewrite <- Hseam in HAf.
  pose proof (maps_batches_compose _ _ _ _ _ _ _ HAf Hsf) as Hfw.
  set (fw := fun input => x <- function A input ;; function self x) in *.
  assert (Hc2 : exists bw,
             _compose2 self A = Ok (fw, bw)
             /\ inverse_ok (CoordinateMap fw (input_coords A) (output_coords self) bw)).
  { unfold _compose2. fold fw.
    destruct Hsi as [E1|(i1 & h1 & E1 & H1)]; rewrite E1; cbn [bind].
    - exists None. split; auto. now left.
    - destruct (inverse_ok_affine A HA) as [E2|(i2 & h2 & E2 & H2)]; rewrite E2; cbn [bind].
      + exists None. split; auto. now left.
      + eexists (Some _). split; [reflexivity|].
        rewrite Hseam in H1.
        apply (inverse_generic_ok fw _ _ (Some _) _ (fun x => h2 (h1 x)) Hfw).
        exact (maps_batches_compose _ _ _ _ _ _ _ H1 H2). }
  destruct Hc2 as (bw & E2 & Hbw). rewrite E2. cbn [bind fst snd].
  rewrite (CoordinateMap_init_maps_batches fw _ _ bw _ Hfw). cbn [bind].
  set (acc := CoordinateMap fw (input_coords A) (output_coords self) bw) in *.
  assert (Hacc : maps_batches (function acc) (ndim (input_coords acc))
                   (ndim (output_coords acc)) (point_fun acc)).
  { apply (maps_batches_point_fun acc _ Hfw). }
  unfold all_affine. simpl forallb.
  replace (is_AffineTransform A) with true
    by (destruct A as [|[|]]; simpl in HA; tauto || reflexivity).
  rewrite andb_true_r.
  destruct (is_AffineTransform self) eqn:Eself.
  - pose proof (call_maps_batches acc _ Hacc) as Hev.
    destruct (linearize_evaluates (call acc) _ _ _ 1 None
                (Some (coord_dtype (output_coords acc))) (zeros (ndim (input_coords acc)))
                Hev) as [d' E].
    { left. split; reflexivity. }
    unfold ndims. cbn [fst]. rewrite E. cbn [bind].
    set (M := from_matrix_vector _ _ _) in *.
    assert (HM : has_shape (ndim (output_coords acc) + 1) (ndim (input_coords acc) + 1) M).
    { apply from_matrix_vector_shape.
      - pose proof (transpose_shape (ndim (output_coords acc))
                      (map (forward_difference (point_fun acc) (ndim (input_coords acc)) 1
                              (zeros (ndim (input_coords acc))))
                           (seq 0 (ndim (input_coords acc))))) as Hs.
        now rewrite length_map, length_seq in Hs.
      - apply Hacc. apply zeros_length. }
    rewrite (AffineTransform_init_ok _ (input_coords acc) (output_coords acc) d' M eq_refl)
      by apply HM.
    cbv zeta. eexists. split; [reflexivity|].
    split; [|simpl; repeat split; reflexivity].
    apply affine_ok. simpl. repeat split; auto; apply HM.
  - exists acc. split; [reflexivity|]. split; [|simpl; repeat split; reflexivity].
    split; [|exact Hbw]. split; [discriminate | exact Hacc].
Qed.

End ComposeWithAffine.

(** ** Reordering the input axes *)

Section Reorder.

Lemma py_index_nat len i : (i < len)%nat -> py_index len (Z.of_nat i) = Some i.
Proof.
  intros H. unfold py_index.
  replace (0 <=? Z.of_nat i)%Z with true by (symmetry; apply Z.leb_le; lia).
  replace (Z.of_nat i <? Z.of_nat len)%Z with true by (symmetry; apply Z.ltb_lt; lia).
  simpl. now rewrite Nat2Z.id.
Qed.

Lemma getitem_nat {A} (l : list A) i d :
  (i < length l)%nat -> getitem l (Z.of_nat i) = Ok (nth i l d).
Proof.
  intros H. unfold getitem. rewrite py_index_nat by exact H.
  destruct (nth_error l i) as [a|] eqn:E.
  - now rewrite (nth_error_nth l i d E).
  - apply nth_error_None in E. lia.
Qed.

Lemma mapM_getitem {A} (l : list A) ps d :
  Forall (fun i => (i < length l)%nat) ps ->
  mapM (getitem l) (map Z.of_nat ps) = Ok (map (fun i => nth i l d) ps).
Proof.
  induction 1 as [|i ps Hi Hps IH]; simpl; auto.
  now rewrite (getitem_nat l i d Hi), IH.
Qed.




Lemma set_nth_length {A} i (a : A) l : length (set_nth i a l) = length l.
Proof.
  revert i; induction l as [|x l IH]; intros [|i]; simpl; auto.
Qed.

Lemma set_nth_Forall {A} (P : A -> Prop) i a l :
  Forall P l -> P a -> Forall P (set_nth i a l).
Proof.
  intros Hl Ha. revert i; induction Hl as [|x l Hx Hl IH]; intros [|i]; simpl;
    constructor; auto.
Qed.

Lemma nth_Forall {A} (P : A -> Prop) i l d : Forall P l -> P d -> P (nth i l d).
Proof.
  intros Hl Hd. revert i; induction Hl as [|x l Hx Hl IH]; intros [|i]; simpl; auto.
Qed.

Lemma set_entry_ok N j i perm :
  has_shape N N perm -> (j < N)%nat -> (i < N)%nat ->
  exists perm', set_entry N (Z.of_nat j) i perm = Ok perm' /\ has_shape N N perm'.
Proof.
  intros [H1 H2] Hj Hi. unfold set_entry. rewrite py_index_nat by exact Hj.
  replace (Nat.ltb i N) with true by (symmetry; apply Nat.ltb_lt; lia).
  eexists. split; [reflexivity|]. split.
  - now rewrite set_nth_length.
  - apply set_nth_Forall; auto. rewrite set_nth_length.
    eapply Forall_forall in H2; [exact H2|]. apply nth_In. lia.
Qed.

Lemma fill_perm_ok N : forall ps i perm,
  has_shape N N perm -> Forall (fun j => (j < N)%nat) ps -> (i + length ps <= N)%nat ->
  exists perm', fill_perm N i (map Z.of_nat ps) perm = Ok perm' /\ has_shape N N perm'.
Proof.
  induction ps as [|j ps IH]; intros i perm Hp Hps Hlen.
  - exists perm. split; [reflexivity | exact Hp].
  - apply Forall_cons_iff in Hps as [Hj Hps]. simpl in Hlen. simpl.
    destruct (set_entry_ok N j i perm Hp Hj) as (perm1 & E1 & Hp1); [lia|].
    rewrite E1. cbn [bind]. apply IH; auto. lia.
Qed.

Lemma initial_perm_shape n : has_shape (n + 1) (n + 1) (initial_perm n).
Proof.
  unfold initial_perm. split.
  - now rewrite set_nth_length, repeat_length.
  - apply set_nth_Forall.
    + apply Forall_forall. intros r Hr. apply repeat_spec in Hr. subst r. apply zeros_length.
    + rewrite set_nth_length. apply zeros_length.
Qed.


End Reorder.

Section ReorderClaims.







End ReorderClaims.

(** ** Renaming the input axes *)

Section Rename.

Lemma name_in_spec n l : name_in n l = true <-> In n l.
Proof.
  unfold name_in. rewrite existsb_exists. split.
  - intros (x & Hx & E). apply String.eqb_eq in E. now subst.
  - intros H. exists n. split; auto. apply String.eqb_refl.
Qed.

Lemma check_keys_ok keys names :
  Forall (fun k => In k names) keys -> check_keys keys names = Ok tt.
Proof.
  induction 1 as [|k keys Hk Hks IH]; simpl; auto.
  apply name_in_spec in Hk. now rewrite Hk.
Qed.

(** A key that is no input axis: the error names the first such key. *)
Lemma check_keys_unknown keys names :
  ~ Forall (fun k => In k names) keys ->
  exists n, In n keys /\ ~ In n names
            /\ check_keys keys names
               = Raise (ValueError ("no input coordinate named " ++ n)%string).
Proof.
  induction keys as [|k keys IH]; intros H.
  - exfalso. apply H. constructor.
  - simpl. destruct (name_in k names) eqn:E.
    + apply name_in_spec in E. destruct IH as (n & Hn & Hnn & Hc).
      * intros HF. apply H. now constructor.
      * exists n. split; [now right|]. split; [exact Hnn | exact Hc].
    + exists k. split; [now left|]. split; [|reflexivity].
      intros Hin. apply name_in_spec in Hin. congruence.
Qed.

Lemma renamed_input_unknown_key self newnames nm :
  ~ Forall (fun k => In k (coord_names (input_coords self))) (map fst newnames) ->
  exists n, In n (map fst newnames) /\ ~ In n (coord_names (input_coords self))
            /\ renamed_input self newnames nm
               = Raise (ValueError ("no input coordinate named " ++ n)%string).
Proof.
  intros H. destruct (check_keys_unknown _ _ H) as (n & H1 & H2 & E).
  exists n. repeat split; auto. unfold renamed_input. now rewrite E.
Qed.

Lemma rename_axes_length d names : length (rename_axes d names) = length names.
Proof. apply length_map. Qed.

Lemma eye_rows n : has_shape n n (eye n).
Proof. apply eye_shape. Qed.

(** With valid keys and an input precision that is not below that of the
    identity matrix, the axes are renamed in place. *)
Lemma renamed_input_renames self newnames nm :
  cmap_ok self ->
  (dtype_rank float64 <= dtype_rank (coord_dtype (input_coords self)))%nat ->
  Forall (fun k => In k (coord_names (input_coords self))) (map fst newnames) ->
  exists c,
    renamed_input self newnames nm = Ok c
    /\ coord_names (input_coords c)
       = rename_axes newnames (coord_names (input_coords self))
    /\ coord_names (output_coords c) = coord_names (output_coords self).
Proof.
  intros Hok Hd Hkeys. unfold renamed_input.
  rewrite (check_keys_ok _ _ Hkeys). cbn [bind]. unfold ndims. cbn [fst].
  set (d := coord_dtype (input_coords self)) in *.
  set (newcs := {| coord_names := rename_axes newnames (coord_names (input_coords self));
                   name := new_name nm (input_coords self); coord_dtype := d |}).
  assert (Hn : ndim newcs = ndim (input_coords self)).
  { unfold ndim, newcs. simpl. apply rename_axes_length. }
  replace (Arr2 float64 (ndim (input_coords self) + 1) (eye (ndim (input_coords self) + 1)))
    with (Arr2 float64 (ndim newcs + 1) (eye (ndim (input_coords self) + 1)))
    by (now rewrite Hn).
  rewrite (AffineTransform_init_ok _ newcs (input_coords self) float64 _ eq_refl)
    by apply eye_shape.
  cbv zeta. cbn [bind].
  replace (safe_dtype float64 [coord_dtype newcs; coord_dtype (input_coords self)]) with d
    by (simpl; fold d; destruct d; simpl in Hd; try lia; reflexivity).
  rewrite (record_dtype (input_coords self) d eq_refl).
  change {| coord_names := coord_names newcs; name := name newcs; coord_dtype := d |}
    with newcs.
  destruct (compose_with_affine self
              (AffineTransform (Arr2 d (ndim newcs + 1) (eye (ndim (input_coords self) + 1)))
                 newcs (input_coords self)) Hok)
    as (c & Ec & Hc & H1 & H2 & H3 & _).
  - cbn [affine_wf]. split; [reflexivity|]. split; [rewrite Hn; apply eye_shape|].
    split; reflexivity.
  - apply cs_eqb_eq. reflexivity.
  - exists c. repeat split; auto.
Qed.

End Rename.

Section RenameClaims.

(** C7 fails on the code.  [renamed_input] composes with an identity
    transform whose matrix is [np.identity(ndim+1)], of precision [float64],
    so that the constructor gives the output coordinates of that transform the
    precision [float64].  When the precision of the input coordinates is below
    [float64], these no longer equal the input coordinates of the map and
    [compose] raises its mismatch error, although every key of the mapping
    is an input axis.  [reordered_input] casts its matrix to the precision of
    the input coordinates. *)
Theorem renamed_input_below_float64 self newnames nm :
  Forall (fun k => In k (coord_names (input_coords self))) (map fst newnames) ->
  (dtype_rank (coord_dtype (input_coords self)) < dtype_rank float64)%nat ->
  renamed_input self newnames nm
  = Raise (ValueError
             (mismatch_message (input_coords self)
                {| coord_names := coord_names (input_coords self);
                   name := name (input_coords self); coord_dtype := float64 |})).
Proof.
  intros Hkeys Hd. unfold renamed_input.
  rewrite (check_keys_ok _ _ Hkeys). cbn [bind]. unfold ndims. cbn [fst].
  set (d := coord_dtype (input_coords self)) in *.
  set (newcs := {| coord_names := rename_axes newnames (coord_names (input_coords self));
                   name := new_name nm (input_coords self); coord_dtype := d |}).
  assert (Hn : ndim newcs = ndim (input_coords self)).
  { unfold ndim, newcs. simpl. apply rename_axes_length. }
  replace (Arr2 float64 (ndim (input_coords self) + 1) (eye (ndim (input_coords self) + 1)))
    with (Arr2 float64 (ndim newcs + 1) (eye (ndim (input_coords self) + 1)))
    by (now rewrite Hn).
  rewrite (AffineTransform_init_ok _ newcs (input_coords self) float64 _ eq_refl)
    by apply eye_shape.
  cbv zeta. cbn [bind].
  replace (safe_dtype float64 [coord_dtype newcs; coord_dtype (input_coords self)])
    with float64
    by (simpl; fold d; destruct d; simpl in Hd; try lia; reflexivity).
  unfold compose. simpl rev. cbv beta iota. simpl compose_loop.
  replace (cs_eqb (input_coords self)
             {| coord_names := coord_names (input_coords self);
                name := name (input_coords self); coord_dtype := float64 |})
    with false; [reflexivity|].
  symmetry. unfold cs_eqb. simpl. fold d.
  replace (dtype_eqb d float64) with false; [apply andb_false_r|].
  destruct d; simpl in Hd; try lia; reflexivity.
Qed.

Lemma renamed_input_below_float64_witness :
  renamed_input int_identity [("i", "phase")]%string ""
  = Raise (ValueError
             (mismatch_message (input_coords int_identity)
                {| coord_names := coord_names (input_coords int_identity);
                   name := name (input_coords int_identity); coord_dtype := float64 |})).
Proof.
  apply (renamed_input_below_float64 int_identity [("i", "phase")]%string "").
  - repeat constructor.
  - simpl. lia.
Defined.

End RenameClaims.

(** ** [copy] and the store *)

Section Copy.

Lemma load_lt h l a : load h l = Some a -> (l < length h)%nat.
Proof. intros H. apply nth_error_Some. unfold load in H. congruence. Qed.

Lemma load_alloc_new h a : load (h ++ [a]) (length h) = Some a.
Proof. unfold load. rewrite nth_error_app2 by lia. now rewrite Nat.sub_diag. Qed.

Lemma load_alloc_old h a l : (l < length h)%nat -> load (h ++ [a]) l = load h l.
Proof. intros H. unfold load. now rewrite nth_error_app1. Qed.

Lemma load_set_nth_other (h : store) l l' a :
  l <> l' -> load (set_nth l a h) l' = load h l'.
Proof.
  unfold load. revert l l'; induction h as [|x h IH]; intros [|l] [|l'] H; simpl; auto;
    congruence.
Qed.

Lemma load_set_nth_same (h : store) l a :
  (l < length h)%nat -> load (set_nth l a h) l = Some a.
Proof.
  unfold load. revert l; induction h as [|x h IH]; intros [|l] H; simpl in *; try lia; auto.
  apply IH. lia.
Qed.

Lemma setitem_other h l i j v h' l' :
  setitem h l i j v = Ok h' -> l <> l' -> load h' l' = load h l'.
Proof.
  unfold setitem. destruct (load h l) as [[d x|d nc rows]|]; try discriminate.
  destruct (py_index (length rows) i); [|discriminate].
  destruct (py_index nc j); [|discriminate].
  intros H Hne. inversion H. now apply load_set_nth_other.
Qed.

Lemma setitem_ok h l d nc rows i j v :
  load h l = Some (Arr2 d nc rows) -> (i < length rows)%nat -> (j < nc)%nat ->
  exists h',
    setitem h l (Z.of_nat i) (Z.of_nat j) v = Ok h'
    /\ load h' l = Some (Arr2 d nc (set_nth i (set_nth j v (nth i rows [])) rows)).
Proof.
  intros Hl Hi Hj. unfold setitem. rewrite Hl, !py_index_nat by assumption.
  eexists. split; [reflexivity|]. apply load_set_nth_same. now apply (load_lt h l _ Hl).
Qed.

Lemma copy_wf c : affine_wf c -> copy c = Ok c.
Proof.
  intros Hwf. destruct (affine_wf_inv c Hwf) as (d & M & ic & oc & -> & HM & Hi & Ho).
  unfold copy. rewrite (AffineTransform_init_ok _ ic oc d M eq_refl) by apply HM.
  cbv zeta. simpl safe_dtype. rewrite Hi, Ho, !safe_dtype2_idem.
  now rewrite (record_dtype ic d Hi), (record_dtype oc d Ho).
Qed.

Lemma copy_ref_wf h o c :
  view h o = Some c -> affine_wf c ->
  copy_ref h o
  = Ok (h ++ [match c with AffineTransform a _ _ => a | _ => Arr1 float64 [] end],
        {| affine_ref := length h; obj_input_coords := obj_input_coords o;
           obj_output_coords := obj_output_coords o |}).
Proof.
  unfold view, copy_ref. destruct (load h (affine_ref o)) as [a|] eqn:El; [|discriminate].
  intros H Hwf. inversion H; subst c; clear H.
  destruct a as [d x|d nc M]; [contradiction|].
  destruct Hwf as (Enc & HM & Hi & Ho).
  unfold alloc, AffineTransform_init_ref. rewrite load_alloc_new.
  cbv zeta. simpl arr_dtype. simpl safe_dtype. rewrite Hi, Ho, !safe_dtype2_idem.
  unfold asarray_ref. simpl arr_dtype.
  replace (dtype_eqb d d) with true by (symmetry; now apply dtype_eqb_eq).
  unfold arr_shape_is, astype, ndim. simpl coord_names.
  destruct HM as [HM _]. unfold ndim in HM, Enc. rewrite HM, Enc, !Nat.eqb_refl. simpl.
  now rewrite (record_dtype (obj_input_coords o) d Hi),
              (record_dtype (obj_output_coords o) d Ho).
Qed.

End Copy.

Section CopyClaims.

(** C9. For an [AffineTransform] as the constructor builds it, [copy] returns
    a transform with an equal matrix and equal coordinate systems whose matrix
    is a new array: the original is as before; an assignment to an entry of
    the matrix of the copy changes the copy and leaves the original as it
    is, and an assignment to an entry of the matrix of the original changes
    the original and leaves the copy as it is.  After [cm.affine[0,0] = 2.0]
    the entry of the copy is still [1.0]. *)
Theorem copy_independent (h : store) (o : affine_obj) (c : cmap) :
  view h o = Some c -> affine_wf c ->
  exists h' o',
    copy_ref h o = Ok (h', o')
    /\ copy c = Ok c
    /\ affine_ref o' <> affine_ref o
    /\ view h' o' = Some c
    /\ view h' o = Some c
    /\ (forall i j v h'', setitem h' (affine_ref o') i j v = Ok h'' -> view h'' o = Some c)
    /\ (forall i j v h'', setitem h' (affine_ref o) i j v = Ok h'' -> view h'' o' = Some c)
    /\ (forall i j v, (i < ndim_out c + 1)%nat -> (j < ndim_in c + 1)%nat ->
          (exists h'', setitem h' (affine_ref o') (Z.of_nat i) (Z.of_nat j) v = Ok h''
                       /\ view h'' o' = Some (assign_entry c i j v)
                       /\ view h'' o = Some c)
          /\ (exists h'', setitem h' (affine_ref o) (Z.of_nat i) (Z.of_nat j) v = Ok h''
                          /\ view h'' o = Some (assign_entry c i j v)
                          /\ view h'' o' = Some c)).
Proof.
  intros Hv Hwf. rewrite (copy_ref_wf h o c Hv Hwf).
  unfold view in Hv. destruct (load h (affine_ref o)) as [a|] eqn:El; [|discriminate].
  inversion Hv; subst c; clear Hv.
  pose proof (load_lt _ _ _ El) as Hlt.
  assert (Hold : load (h ++ [a]) (affine_ref o) = Some a)
    by (now rewrite load_alloc_old).
  assert (Hnew : load (h ++ [a]) (length h) = Some a) by apply load_alloc_new.
  assert (Hframe1 : forall i j v h'',
             setitem (h ++ [a]) (length h) i j v = Ok h'' ->
             load h'' (affine_ref o) = Some a).
  { intros i j v h'' Hs.
    rewrite (setitem_other _ _ _ _ _ _ (affine_ref o) Hs) by lia. exact Hold. }
  assert (Hframe2 : forall i j v h'',
             setitem (h ++ [a]) (affine_ref o) i j v = Ok h'' ->
             load h'' (length h) = Some a).
  { intros i j v h'' Hs.
    rewrite (setitem_other _ _ _ _ _ _ (length h) Hs) by lia. exact Hnew. }
  eexists. eexists. split; [reflexivity|].
  split; [now apply copy_wf|].
  split; [simpl; lia|].
  split; [unfold view; simpl; now rewrite Hnew|].
  split; [unfold view; now rewrite Hold|].
  split; [|split].
  - intros i j v h'' Hs. unfold view. now rewrite (Hframe1 i j v h'' Hs).
  - intros i j v h'' Hs. unfold view. simpl affine_ref. now rewrite (Hframe2 i j v h'' Hs).
  - intros i j v Hi Hj.
    destruct a as [d x|d nc M]; [contradiction|].
    destruct Hwf as (Enc & [HM _] & _).
    unfold ndim_out, ndim_in in Hi, Hj. simpl in Hi, Hj.
    split.
    + destruct (setitem_ok (h ++ [Arr2 d nc M]) (length h) d nc M i j v Hnew)
        as (h'' & Es & El'); [lia | lia |].
      exists h''. split; [exact Es|]. unfold view. simpl affine_ref.
      rewrite El', (Hframe1 _ _ _ _ Es). split; reflexivity.
    + destruct (setitem_ok (h ++ [Arr2 d nc M]) (affine_ref o) d nc M i j v Hold)
        as (h'' & Es & El'); [lia | lia |].
      exists h''. split; [exact Es|]. unfold view. simpl affine_ref.
      rewrite El', (Hframe2 _ _ _ _ Es). split; reflexivity.
Qed.

Lemma copy_independent_witness :
  view eye4_store eye4_obj
  = Some (AffineTransform (Arr2 float64 4 (eye 4)) (obj_input_coords eye4_obj)
            (obj_output_coords eye4_obj))
  /\ exists h' o',
      copy_ref eye4_store eye4_obj = Ok (h', o')
      /\ affine_ref o' <> affine_ref eye4_obj
      /\ view h' o' = view h' eye4_obj
      /\ (exists h'',
            setitem h' (affine_ref eye4_obj) 0 0 (qz 2) = Ok h''
            /\ view h'' eye4_obj
               = Some (assign_entry
                         (AffineTransform (Arr2 float64 4 (eye 4))
                            (obj_input_coords eye4_obj) (obj_output_coords eye4_obj))
                         0 0 (qz 2))
            /\ view h'' o'
               = Some (AffineTransform (Arr2 float64 4 (eye 4))
                         (obj_input_coords eye4_obj) (obj_output_coords eye4_obj))).
Proof.
  split; [reflexivity|].
  destruct (copy_independent eye4_store eye4_obj
              (AffineTransform (Arr2 float64 4 (eye 4)) (obj_input_coords eye4_obj)
                 (obj_output_coords eye4_obj)) eq_refl)
    as (h' & o' & Hc & _ & Hne & Hv' & Hv & _ & _ & Hset).
  - affine_wf_tac.
  - exists h', o'. split; [exact Hc|]. split; [exact Hne|].
    split; [now rewrite Hv', Hv|].
    destruct (Hset 0%nat 0%nat (qz 2)) as [_ H2].
    + unfold ndim_out, ndim. simpl. lia.
    + unfold ndim_in, ndim. simpl. lia.
    + exact H2.
Defined.

(** The docstring of [AffineTransform.copy]: after [cm.affine[0,0] = 2.0] the
    entry of the copy is [1.0]. *)
Example copy_docstring :
  (c' <- copy_ref eye4_store eye4_obj ;;
   h2 <- setitem (fst c') (affine_ref eye4_obj) 0 0 (qz 2) ;;
   Ok (option_map affine_matrix (view h2 eye4_obj),
       option_map affine_matrix (view h2 (snd c'))))
  = Ok (Some [[qz 2; 0; 0; 0]; [0; qz 1; 0; 0]; [0; 0; qz 1; 0]; [0; 0; 0; qz 1]],
        Some [[qz 1; 0; 0; 0]; [0; qz 1; 0; 0]; [0; 0; qz 1; 0]; [0; 0; 0; qz 1]]).
Proof. vm_compute. qc_equal. Qed.

End CopyClaims.

(** ** The transforms used above are the ones the constructors build *)

Section Examples.

Example ijk_to_xyz_built : ijk_to_xyz = Ok diag_ijk.
Proof. vm_compute. qc_equal. Qed.

Example double_i_to_x_built :
  from_params ["i"%string] ["x"%string]
    (ParamsMatrix (Arr2 float64 2 [[qz 2; 0]; [0; qz 1]])) = Ok double_i_to_x.
Proof. vm_compute. qc_equal. Qed.


Example int_identity_built :
  AffineTransform_init (Arr2 int32 2 [[qz 1; 0]; [0; qz 1]])
    {| coord_names := ["i"%string]; name := "input"; coord_dtype := int32 |}
    {| coord_names := ["x"%string]; name := "output"; coord_dtype := int32 |}
  = Ok int_identity.
Proof. vm_compute. qc_equal. Qed.

Example int_identity_inverse :
  inverse int_identity
  = Ok (Some (AffineTransform (Arr2 float64 2 [[qz 1; 0]; [0; qz 1]])
                {| coord_names := ["x"%string]; name := "output"; coord_dtype := float64 |}
                {| coord_names := ["i"%string]; name := "input"; coord_dtype := float64 |})).
Proof. vm_compute. qc_equal. Qed.

(** The docstring of [compose]: a map composed with its inverse is the
    identity on the coordinates of the inverse. *)
Example compose_with_inverse :
  compose [double_i_to_x; half_x_to_i]
  = Ok (AffineTransform (Arr2 float64 2 [[qz 1; 0]; [0; qz 1]])
          (input_coords half_x_to_i) (output_coords double_i_to_x)).
Proof. vm_compute. qc_equal. Qed.

(** The docstring of [renamed_input]. *)
Example renamed_input_docstring :
  (c <- renamed_input diag_ijk [("i", "phase"); ("k", "freq"); ("j", "slice")]%string "" ;;
   Ok (coord_names (input_coords c)))
  = Ok ["phase"; "slice"; "freq"]%string
  /\ renamed_input diag_ijk [("i", "phase"); ("k", "freq"); ("l", "slice")]%string ""
     = Raise (ValueError "no input coordinate named l").
Proof. split; vm_compute; reflexivity. Qed.

(** The docstring of [reordered_input]. *)
Example reordered_input_docstring :
  (c <- reordered_input diag_ijk (OrderNames ["i"; "k"; "j"]%string) "neworder" ;;
   Ok (input_coords c))
  = Ok {| coord_names := ["i"; "k"; "j"]%string; name := "neworder";
          coord_dtype := float64 |}.
Proof. vm_compute. reflexivity. Qed.

End Examples.

(** ** [compose] evaluates to the composition of the functions *)

Section ComposeEvaluation.






End ComposeEvaluation.

Section ComposeEvaluationProperties.





End ComposeEvaluationProperties.

(** ** The inverse of an affine transform undoes the transform *)

Section InverseRoundTrip.







End InverseRoundTrip.

Section InverseProperties.








End InverseProperties.

(** ** [from_params], [from_start_step] and [identity] *)

Section Constructors.






















End Constructors.

Section ConstructorProperties.









End ConstructorProperties.

(** ** Renaming the axes keeps the function *)

Section ComposePair.






End ComposePair.

Section RenameProperties.



Lemma check_output_keys_ok keys names :
  Forall (fun k => In k names) keys -> check_output_keys keys names = Ok tt.
Proof.
  induction 1 as [|k keys Hk Hks IH]; simpl; auto.
  apply name_in_spec in Hk. now rewrite Hk.
Qed.


(** The identity transform that [renamed_output] composes with. *)
Lemma renamed_output_ident self newnames nm :
  let d := coord_dtype (output_coords self) in
  let newcs := {| coord_names := rename_axes newnames (coord_names (output_coords self));
                  name := new_name nm (input_coords self); coord_dtype := d |} in
  let dt := safe_dtype2 float64 d in
  Forall (fun k => In k (coord_names (output_coords self))) (map fst newnames) ->
  renamed_output self newnames nm
  = compose [AffineTransform
               (Arr2 dt (ndim (output_coords self) + 1) (eye (ndim (output_coords self) + 1)))
               {| coord_names := coord_names (output_coords self);
                  name := name (output_coords self); coord_dtype := dt |}
               {| coord_names := coord_names newcs; name := name newcs;
                  coord_dtype := dt |};
             self].
Proof.
  intros d newcs dt Hkeys. unfold renamed_output.
  rewrite (check_output_keys_ok _ _ Hkeys). cbn [bind]. unfold ndims. cbn [snd].
  fold d. fold newcs.
  assert (Hn : ndim newcs = ndim (output_coords self)).
  { unfold ndim, newcs. simpl. apply rename_axes_length. }
  rewrite (AffineTransform_init_ok _ (output_coords self) newcs float64 _ eq_refl)
    by (rewrite Hn; apply eye_shape).
  cbv zeta. cbn [bind].
  replace (safe_dtype float64 [coord_dtype (output_coords self); coord_dtype newcs]) with dt
    by (unfold dt; simpl; fold d; now destruct d).
  reflexivity.
Qed.



(** X9. [renamed_output] on a map whose output precision is below [float64]:
    although every key is an output axis name and the new names are unique,
    it raises the mismatch error of [compose].  The identity transform is
    built from [np.identity(ndim+1)], of precision [float64], so that its
    input coordinates have the precision [float64] and no longer equal the
    output coordinates of the map. *)
Theorem renamed_output_below_float64 self newnames nm :
  Forall (fun k => In k (coord_names (output_coords self))) (map fst newnames) ->
  NoDup (rename_axes newnames (coord_names (output_coords self))) ->
  (dtype_rank (coord_dtype (output_coords self)) < dtype_rank float64)%nat ->
  renamed_output self newnames nm
  = Raise (ValueError
             (mismatch_message
                {| coord_names := coord_names (output_coords self);
                   name := name (output_coords self); coord_dtype := float64 |}
                (output_coords self))).
Proof.
  intros Hkeys _ Hd. rewrite (renamed_output_ident self newnames nm Hkeys).
  set (d := coord_dtype (output_coords self)) in *.
  replace (safe_dtype2 float64 d) with float64
    by (destruct d; simpl in Hd; try lia; reflexivity).
  unfold compose. simpl rev. cbv beta iota. simpl compose_loop.
  replace (cs_eqb {| coord_names := coord_names (output_coords self);
                     name := name (output_coords self); coord_dtype := float64 |}
             (output_coords self))
    with false; [reflexivity|].
  symmetry. unfold cs_eqb. simpl. fold d.
  replace (dtype_eqb float64 d) with false; [apply andb_false_r|].
  destruct d; simpl in Hd; try lia; reflexivity.
Qed.

Lemma renamed_output_below_float64_witness :
  renamed_output int_identity [("x", "u")]%string ""
  = Raise (ValueError
             (mismatch_message
                {| coord_names := ["x"%string]; name := "output"; coord_dtype := float64 |}
                {| coord_names := ["x"%string]; name := "output"; coord_dtype := int32 |})).
Proof.
  apply (renamed_output_below_float64 int_identity [("x", "u")]%string "").
  - repeat constructor; simpl; tauto.
  - vm_compute. repeat constructor; simpl; intuition discriminate.
  - simpl. lia.
Defined.

End RenameProperties.

(** ** [product] and [concat] act on the blocks of a point *)

Section ProductEvaluation.




End ProductEvaluation.

Section ProductProperties.







End ProductProperties.

(** ** The permutation matrix of [reordered_input] and [reordered_output] *)

Section Permutations.



















End Permutations.

(** ** Reordering the axes permutes the coordinates *)

Section ReorderEvaluation.



End ReorderEvaluation.

Section ReorderProperties.





(** X18. An order that leaves an axis out is refused: for distinct positions
    of input axes, fewer than the map has, [reordered_input] raises the
    [ValueError] of the constructor of [AffineTransform] on the shape of the
    matrix, and so does [reordered_output] for distinct positions of output
    axes, fewer than the map has. *)
Theorem reorder_short_order_raises self ps nm :
  ps <> [] -> NoDup ps ->
  (cs_wf (input_coords self) -> Forall (fun p => (p < ndim_in self)%nat) ps ->
   (length ps < ndim_in self)%nat ->
   reordered_input self (OrderInts (map Z.of_nat ps)) nm
   = Raise (ValueError "coordinate lengths do not match affine matrix shape"))
  /\ (cs_wf (output_coords self) -> Forall (fun p => (p < ndim_out self)%nat) ps ->
      (length ps < ndim_out self)%nat ->
      reordered_output self (OrderInts (map Z.of_nat ps)) nm
      = Raise (ValueError "coordinate lengths do not match affine matrix shape")).
Proof.
  intros Hne _. split.
  - intros _ Hps Hlen. unfold reordered_input, normalize_order.
    destruct ps as [|p ps']; [congruence|].
    change (map Z.of_nat (p :: ps')) with (Z.of_nat p :: map Z.of_nat ps') at 1.
    cbv beta iota. cbn [bind].
    change (Z.of_nat p :: map Z.of_nat ps') with (map Z.of_nat (p :: ps')).
    set (qs := p :: ps') in *. unfold reordered_with, ndims. cbn [fst].
    fold (ndim_in self).
    rewrite (mapM_getitem _ qs EmptyString) by exact Hps. cbn [bind].
    destruct (fill_perm_ok (ndim_in self + 1) qs 0 (initial_perm (ndim_in self))
                (initial_perm_shape _)) as (perm & Ep & Hperm).
    { eapply Forall_impl; [|exact Hps]. simpl. intros; lia. }
    { lia. }
    rewrite Ep. cbn [bind]. unfold AffineTransform_init.
    cbn [astype arr_shape_is]. unfold ndim at 2. cbn [coord_names].
    rewrite length_map.
    replace (Nat.eqb (ndim_in self + 1) (length qs + 1)) with false
      by (symmetry; apply Nat.eqb_neq; lia).
    now rewrite andb_false_r.
  - intros _ Hps Hlen. unfold reordered_output, normalize_output_order.
    destruct ps as [|p ps']; [congruence|].
    change (map Z.of_nat (p :: ps')) with (Z.of_nat p :: map Z.of_nat ps') at 1.
    cbv beta iota. cbn [bind].
    change (Z.of_nat p :: map Z.of_nat ps') with (map Z.of_nat (p :: ps')).
    set (qs := p :: ps') in *. unfold ndims. cbn [snd]. fold (ndim_out self).
    rewrite (mapM_getitem _ qs EmptyString) by exact Hps. cbn [bind].
    destruct (fill_perm_ok (ndim_out self + 1) qs 0 (initial_perm (ndim_out self))
                (initial_perm_shape _)) as (perm & Ep & Hperm).
    { eapply Forall_impl; [|exact Hps]. simpl. intros; lia. }
    { lia. }
    rewrite Ep. cbn [bind]. unfold AffineTransform_init.
    cbn [astype arr_shape_is]. unfold ndim at 1. cbn [coord_names].
    rewrite length_map.
    pose proof (transpose_shape (ndim_out self + 1) perm) as [HT _]. rewrite HT.
    replace (Nat.eqb (ndim_out self + 1) (length qs + 1)) with false
      by (symmetry; apply Nat.eqb_neq; lia).
    reflexivity.
Qed.

Lemma reorder_short_order_raises_witness :
  reordered_input diag_ijk (OrderInts [0; 2]%Z) ""
  = Raise (ValueError "coordinate lengths do not match affine matrix shape")
  /\ reordered_output diag_ijk (OrderInts [0; 2]%Z) ""
     = Raise (ValueError "coordinate lengths do not match affine matrix shape").
Proof.
  assert (Hne : [0; 2]%nat <> []) by discriminate.
  assert (Hnd : NoDup [0; 2]%nat) by (repeat constructor; simpl; intuition discriminate).
  destruct (reorder_short_order_raises diag_ijk [0; 2]%nat "" Hne Hnd) as [H1 H2].
  split.
  - apply H1.
    + unfold cs_wf; simpl; repeat constructor; simpl; intuition discriminate.
    + repeat constructor; unfold ndim_in, ndim; simpl; lia.
    + unfold ndim_in, ndim. simpl. lia.
  - apply H2.
    + unfold cs_wf; simpl; repeat constructor; simpl; intuition discriminate.
    + repeat constructor; unfold ndim_out, ndim; simpl; lia.
    + unfold ndim_out, ndim. simpl. lia.
Defined.

End ReorderProperties.

(** ** The constructor keeps the array it is given *)

Section SharedMatrix.

(** X15. [AffineTransform(affine, ...)] on a matrix of the right shape keeps
    the array it is given when that array already has the promoted precision
    ([np.asarray] returns its argument): an assignment to an entry of the
    array of the caller then changes the transform.  When a cast is needed
    the transform holds a new array and the same assignment leaves it as it
    is.  In both cases the transform is the one that the constructor builds
    from the values of the array. *)
Theorem constructor_shares_matrix (h : store) (l : nat) (d : dtype) (nc : nat)
    (M : matrix) (ic oc : CoordinateSystem) :
  load h l = Some (Arr2 d nc M) ->
  arr_shape_is (ndim oc + 1) (ndim ic + 1) (Arr2 d nc M) = true ->
  let dt := safe_dtype d [coord_dtype ic; coord_dtype oc] in
  exists h' o c,
    AffineTransform_init_ref h l ic oc = Ok (h', o)
    /\ AffineTransform_init (Arr2 d nc M) ic oc = Ok c
    /\ view h' o = Some c
    /\ (d = dt -> h' = h /\ affine_ref o = l)
    /\ (d <> dt -> affine_ref o = length h /\ affine_ref o <> l)
    /\ forall i j v, (i < ndim oc + 1)%nat -> (j < ndim ic + 1)%nat ->
         exists h2,
           setitem h' l (Z.of_nat i) (Z.of_nat j) v = Ok h2
           /\ view h2 o = Some (if dtype_eqb d dt then assign_entry c i j v else c).
Proof.
  intros Hl Hshape dt.
  pose proof (load_lt _ _ _ Hl) as Hlt.
  unfold AffineTransform_init_ref, AffineTransform_init. rewrite Hl. cbv zeta.
  cbn [arr_dtype astype]. fold dt.
  assert (Hshape' : arr_shape_is
                      (ndim {| coord_names := coord_names oc; name := name oc;
                               coord_dtype := dt |} + 1)
                      (ndim {| coord_names := coord_names ic; name := name ic;
                               coord_dtype := dt |} + 1) (Arr2 dt nc M) = true)
    by exact Hshape.
  rewrite Hshape'.
  cbn [arr_shape_is] in Hshape. apply andb_true_iff in Hshape as [HM Hnc].
  apply Nat.eqb_eq in HM, Hnc.
  unfold asarray_ref. cbn [arr_dtype astype].
  destruct (dtype_eqb d dt) eqn:Ed.
  - apply dtype_eqb_eq in Ed. rewrite <- Ed.
    eexists. eexists. eexists. split; [reflexivity|]. split; [reflexivity|].
    split; [unfold view; cbn [affine_ref]; now rewrite Hl|].
    split; [intros _; split; reflexivity|]. split; [intros Hne; congruence|].
    intros i j v Hi Hj.
    destruct (setitem_ok h l d nc M i j v Hl) as (h2 & Es & El2); [lia | lia |].
    exists h2. split; [exact Es|]. unfold view. cbn [affine_ref]. now rewrite El2.
  - assert (Hne : d <> dt) by (intros E; apply dtype_eqb_eq in E; congruence).
    unfold alloc.
    eexists. eexists. eexists. split; [reflexivity|]. split; [reflexivity|].
    split; [unfold view; cbn [affine_ref]; now rewrite load_alloc_new|].
    split; [intros E; congruence|]. split; [intros _; split; [reflexivity | cbn; lia]|].
    intros i j v Hi Hj.
    assert (Hl' : load (h ++ [Arr2 dt nc M]) l = Some (Arr2 d nc M))
      by (now rewrite load_alloc_old).
    destruct (setitem_ok _ l d nc M i j v Hl') as (h2 & Es & El2); [lia | lia |].
    exists h2. split; [exact Es|]. unfold view. cbn [affine_ref].
    rewrite (setitem_other _ _ _ _ _ _ (length h) Es) by lia.
    now rewrite load_alloc_new.
Qed.

Lemma constructor_shares_matrix_witness :
  (exists h' o h2,
      AffineTransform_init_ref eye4_store 0 (CS ["i"; "j"; "k"]%string)
        (CS ["x"; "y"; "z"]%string) = Ok (h', o)
      /\ affine_ref o = 0%nat
      /\ setitem h' 0 0 0 (qz 2) = Ok h2
      /\ option_map affine_matrix (view h2 o)
         = Some [[qz 2; 0; 0; 0]; [0; qz 1; 0; 0]; [0; 0; qz 1; 0]; [0; 0; 0; qz 1]])
  /\ (exists h' o h2,
      AffineTransform_init_ref [Arr2 int64 4 diag_1231] 0 (CS ["i"; "j"; "k"]%string)
        (CS ["x"; "y"; "z"]%string) = Ok (h', o)
      /\ affine_ref o = 1%nat
      /\ setitem h' 0 0 0 (qz 2) = Ok h2
      /\ option_map affine_matrix (view h2 o) = Some diag_1231).
Proof.
  split.
  - destruct (constructor_shares_matrix eye4_store 0 float64 4 (eye 4)
                (CS ["i"; "j"; "k"]%string) (CS ["x"; "y"; "z"]%string) eq_refl eq_refl)
      as (h' & o & c & Ei & Ec & Hv & Hsame & _ & Hset).
    destruct (Hsame eq_refl) as [_ Href].
    destruct (Hset 0%nat 0%nat (qz 2)) as (h2 & Es & Hv2); [simpl; lia | simpl; lia |].
    exists h', o, h2. split; [exact Ei|]. split; [exact Href|]. split; [exact Es|].
    rewrite Hv2. vm_compute in Ec. inversion Ec; subst c. vm_compute. qc_equal.
  - destruct (constructor_shares_matrix [Arr2 int64 4 diag_1231] 0 int64 4 diag_1231
                (CS ["i"; "j"; "k"]%string) (CS ["x"; "y"; "z"]%string) eq_refl eq_refl)
      as (h' & o & c & Ei & Ec & Hv & _ & Hnew & Hset).
    destruct (Hnew ltac:(discriminate)) as [Href _].
    destruct (Hset 0%nat 0%nat (qz 2)) as (h2 & Es & Hv2); [simpl; lia | simpl; lia |].
    exists h', o, h2. split; [exact Ei|]. split; [exact Href|]. split; [exact Es|].
    rewrite Hv2. vm_compute in Ec. inversion Ec; subst c. vm_compute. qc_equal.
Defined.

End SharedMatrix.

(** ** The inverse of a composition *)

Section ComposeInverse.




End ComposeInverse.

Section ComposeInverseProperties.



End ComposeInverseProperties.
